(** * Cloud NetApp Files storage pools: the API wrapper of
      googlecloudsdk/api_lib/netapp/storage_pools/client.py

    The wrapper builds request messages, sends them through a generated API
    client, optionally waits for the long-running operation, and lists
    storage pools page by page.  The embedding below keeps the three kinds of
    state the Python code touches:

    - message objects, which are mutable and passed by reference
      (a store of messages addressed by index);
    - the remote service, seen through the requests that reach it
      (a log of calls) and an injected, deterministic behaviour;
    - the warning channel and a virtual clock advanced by sleeping. *)

From stdpp Require Import base gmap strings list.
From Stdlib Require Import ZArith Lia Ascii.

Local Open Scope string_scope.

(** ** Messages *)

(** Field values of the generated message classes that this module reads or
    writes: integers (capacityGib), strings (name, description), enum values
    (serviceLevel) and a LabelsValue message (a list of key/value pairs). *)
Inductive Value :=
| VInt (z : Z)
| VStr (s : string)
| VEnum (s : string)
| VLabels (kvs : list (string * string)).

(** A message object is its set of assigned fields; a field that was never
    assigned, or was assigned None, reads back as None. *)
Abbreviation Message := (gmap string Value).

(** [obj.field = v] on a message: assigning None clears the field. *)
Definition setattr (m : Message) (field : string) (v : option Value) : Message :=
  match v with
  | Some x => <[field := x]> m
  | None => delete field m
  end.

(** Message objects live in the store and are named by their index. *)
Abbreviation loc := nat (only parsing).

(** A parsed resource reference, through the three methods the module calls:
    [RelativeName()], [Name()] and [Parent().RelativeName()]. *)
Record ResourceRef := mkRef {
  RelativeName : string;
  Name : string;
  ParentRelativeName : string
}.

(** The accepted-operation message returned by Create, Delete and Patch. *)
Record Operation := mkOperation { op_name : string }.

Record ErrorInfo := mkErrorInfo { err_code : Z; err_message : string }.

Inductive OperationStatus :=
| Pending
| Done (result : Message)
| Failed (error : ErrorInfo).

(** NetappProjectsLocationsStoragePoolsCreateRequest *)
Record CreateRequest := mkCreateRequest {
  cr_parent : string;
  cr_storagePoolId : string;
  cr_storagePool : loc
}.

(** NetappProjectsLocationsStoragePoolsDeleteRequest *)
Record DeleteRequest := mkDeleteRequest { dr_name : string }.

(** NetappProjectsLocationsStoragePoolsGetRequest *)
Record GetRequest := mkGetRequest { gr_name : string }.

(** NetappProjectsLocationsStoragePoolsPatchRequest *)
Record PatchRequest := mkPatchRequest {
  pr_storagePool : loc;
  pr_name : string;
  pr_updateMask : string
}.

(** NetappProjectsLocationsStoragePoolsListRequest; [pageToken] and
    [pageSize] are the attributes the pager assigns. *)
Record ListRequest := mkListRequest {
  lr_parent : string;
  lr_pageToken : option string;
  lr_pageSize : option nat
}.

(** The list response: its repeated message fields by name (the pager reads
    one of them with getattr), the unreachable locations and the
    continuation token. *)
Record ListResponse := mkListResponse {
  repeated : string -> list Message;
  unreachable : list string;
  nextPageToken : option string
}.

(** ** The remote service *)

(** What reaches the service: a request with the content of the message
    objects it refers to at the time it is sent. *)
Inductive NetCall :=
| CallCreate (parent storagePoolId : string) (body : Message)
| CallDelete (name : string)
| CallPatch (name updateMask : string) (body : Message)
| CallList (request : ListRequest)
| CallGet (name : string)
| CallOperationsGet (name : string).

(** client.projects_locations_storagePools: the answers of the service. *)
Record StoragePoolsService := mkStoragePoolsService {
  sp_Create : string -> string -> Message -> Operation;
  sp_Delete : string -> Operation;
  sp_Patch : string -> string -> Message -> Operation;
  sp_List : ListRequest -> ListResponse;
  sp_Get : string -> Message
}.

(** client.projects_locations_operations: the status of operation [name] at
    its [k]-th poll (counting from 0). *)
Record OperationsService := mkOperationsService {
  ops_Get : string -> nat -> OperationStatus
}.

Record NetappClient := mkNetappClient {
  projects_locations_storagePools : StoragePoolsService;
  projects_locations_operations : OperationsService
}.

(** ** Exceptions, state and the monad of the module *)

(** calliope's base.ReleaseTrack, by its three public tracks. *)
Inductive ReleaseTrack := ALPHA | BETA | GA.

#[global] Instance ReleaseTrack_eq_dec : EqDecision ReleaseTrack.
Proof. solve_decision. Defined.

Inductive Exn :=
| ValueError (msg : string)
| KeyError (key : ReleaseTrack)
| OperationError (error : ErrorInfo)
| TimeoutError
| InvalidResource (name collection : string)
| InvalidReference (l : loc).

Record World := mkWorld {
  heap : list Message;
  calls : list NetCall;
  warnings : list string;
  clock : Z
}.

Inductive Outcome (A : Type) :=
| Ok (a : A)
| Raise (e : Exn)
| OutOfFuel.
Arguments Ok {A} a.
Arguments Raise {A} e.
Arguments OutOfFuel {A}.

Definition M (A : Type) : Type := World -> Outcome A * World.

Definition run {A} (m : M A) (w : World) : Outcome A * World := m w.
Arguments run : simpl never.

#[global] Instance M_ret : MRet M := fun A a w => (Ok a, w).

#[global] Instance M_bind : MBind M := fun A B f m w =>
  match m w with
  | (Ok a, w') => f a w'
  | (Raise e, w') => (Raise e, w')
  | (OutOfFuel, w') => (OutOfFuel, w')
  end.

#[global] Instance M_fmap : FMap M := fun A B f m w =>
  match m w with
  | (Ok a, w') => (Ok (f a), w')
  | (Raise e, w') => (Raise e, w')
  | (OutOfFuel, w') => (OutOfFuel, w')
  end.

Definition raise {A} (e : Exn) : M A := fun w => (Raise e, w).

Definition out_of_fuel {A} : M A := fun w => (OutOfFuel, w).

(** Record one request sent to the service. *)
Definition send (c : NetCall) : M unit := fun w =>
  (Ok tt, mkWorld (heap w) (calls w ++ [c]) (warnings w) (clock w)).

(** log.warning *)
Definition log_warning (msg : string) : M unit := fun w =>
  (Ok tt, mkWorld (heap w) (calls w) (warnings w ++ [msg]) (clock w)).

(** time.sleep, in milliseconds of the virtual clock. *)
Definition sleep (ms : Z) : M unit := fun w =>
  (Ok tt, mkWorld (heap w) (calls w) (warnings w) (clock w + ms)%Z).

(** A new message object. *)
Definition new_message (m : Message) : M loc := fun w =>
  (Ok (length (heap w)), mkWorld (heap w ++ [m]) (calls w) (warnings w) (clock w)).

Definition read_message (l : loc) : M Message := fun w =>
  match heap w !! l with
  | Some m => (Ok m, w)
  | None => (Raise (InvalidReference l), w)
  end.

(** [l.field = v] *)
Definition assign (l : loc) (field : string) (v : option Value) : M unit := fun w =>
  match heap w !! l with
  | Some m =>
      (Ok tt, mkWorld (<[l := setattr m field v]> (heap w)) (calls w) (warnings w) (clock w))
  | None => (Raise (InvalidReference l), w)
  end.

(** Number of polls of operation [name] among the calls sent so far. *)
Fixpoint polls_of (name : string) (cs : list NetCall) : nat :=
  match cs with
  | [] => 0
  | CallOperationsGet n :: cs' =>
      (if decide (n = name) then 1 else 0) + polls_of name cs'
  | _ :: cs' => polls_of name cs'
  end.

(** Number of List requests among the calls sent so far. *)
Fixpoint list_requests (cs : list NetCall) : nat :=
  match cs with
  | [] => 0
  | CallList _ :: cs' => S (list_requests cs')
  | _ :: cs' => list_requests cs'
  end.

(** The remote methods: each sends one request and returns the answer. *)
Definition Create (svc : StoragePoolsService) (request : CreateRequest) : M Operation :=
  body ← read_message (cr_storagePool request);
  send (CallCreate (cr_parent request) (cr_storagePoolId request) body);;
  mret (sp_Create svc (cr_parent request) (cr_storagePoolId request) body).

Definition Delete (svc : StoragePoolsService) (request : DeleteRequest) : M Operation :=
  send (CallDelete (dr_name request));;
  mret (sp_Delete svc (dr_name request)).

Definition Patch (svc : StoragePoolsService) (request : PatchRequest) : M Operation :=
  body ← read_message (pr_storagePool request);
  send (CallPatch (pr_name request) (pr_updateMask request) body);;
  mret (sp_Patch svc (pr_name request) (pr_updateMask request) body).

Definition List_ (svc : StoragePoolsService) (request : ListRequest) : M ListResponse :=
  send (CallList request);;
  mret (sp_List svc request).

Definition Get (svc : StoragePoolsService) (request : GetRequest) : M Message :=
  send (CallGet (gr_name request));;
  mret (sp_Get svc (gr_name request)).

(** ** The list pager (apitools list_pager) *)

Module list_pager.

(** Where the generator body is suspended. *)
Inductive Phase :=
| AtLoopHead   (* about to test the limit and request a page *)
| InPage       (* iterating over the items of the page just received *)
| Finished.    (* returned *)

(** The generator object: the arguments it was created with and its local
    variables. *)
Record Pager := mkPager {
  pg_service : StoragePoolsService;
  pg_request : ListRequest;
  pg_field : string;
  pg_limit : option nat;
  pg_batch_size : nat;
  pg_items : list Message;
  pg_token : option string;
  pg_phase : Phase
}.

(** One resumption of the generator ends in one of these. *)
Inductive GenStep :=
| Yield (item : Message) (g : Pager)
| Skip (g : Pager)
| StopIteration.

(** Modelled from the spec: the page size sent along with a request, which
    carries the limit to the server: the batch size, capped by the number of
    results still wanted. *)
Definition request_batch_size (batch_size : nat) (limit : option nat) : nat :=
  match limit with
  | Some n => Nat.min batch_size n
  | None => batch_size
  end.

(** Modelled from the spec: "until no continuation token remains"; a token
    that is absent or empty ends the listing. *)
Definition no_token (t : option string) : bool :=
  match t with
  | None => true
  | Some s => if decide (s = "") then true else false
  end.

(** Modelled from the spec: list_pager.YieldFromList of the bundled apitools
    library is not among the sources at hand.  Following section 4.3 it is a
    lazy sequence that repeatedly requests pages from the remote service
    until no continuation token remains, applying an optional result-count
    limit; nothing is requested before the sequence is consumed.  The
    request it is given is copied with its page token cleared; the page size
    attribute named by the caller carries the limit to the server, as the
    docstring of ListStoragePools says. *)
Definition YieldFromList (service : StoragePoolsService) (request : ListRequest)
    (field : string) (limit : option nat) (batch_size : nat) : Pager :=
  mkPager service (mkListRequest (lr_parent request) None (lr_pageSize request))
          field limit batch_size [] None AtLoopHead.

(** Modelled from the spec: one resumption of the generator made by
    [YieldFromList].  At the loop head it stops if the limit is used up and
    otherwise requests one page; inside a page it yields the next item and
    counts it against the limit; at the end of a page it stops unless a
    continuation token remains.  Counting an item has no effect of its own,
    so it is done as the item is handed out. *)
Definition step (g : Pager) : M GenStep :=
  match pg_phase g with
  | Finished => mret StopIteration
  | AtLoopHead =>
      match pg_limit g with
      | Some O => mret StopIteration
      | _ =>
          let request :=
            mkListRequest (lr_parent (pg_request g)) (lr_pageToken (pg_request g))
              (Some (request_batch_size (pg_batch_size g) (pg_limit g))) in
          response ← List_ (pg_service g) request;
          mret (Skip (mkPager (pg_service g) request (pg_field g) (pg_limit g)
                        (pg_batch_size g) (repeated response (pg_field g))
                        (nextPageToken response) InPage))
      end
  | InPage =>
      match pg_items g with
      | item :: rest =>
          let limit := Nat.pred <$> pg_limit g in
          mret (Yield item
                  (mkPager (pg_service g) (pg_request g) (pg_field g) limit
                     (pg_batch_size g) rest (pg_token g)
                     (match limit with Some O => Finished | _ => InPage end)))
      | [] =>
          if no_token (pg_token g) then mret StopIteration
          else
            mret (Skip (mkPager (pg_service g)
                          (mkListRequest (lr_parent (pg_request g)) (pg_token g)
                             (lr_pageSize (pg_request g)))
                          (pg_field g) (pg_limit g) (pg_batch_size g) []
                          None AtLoopHead))
      end
  end.

End list_pager.

(** Python's [list(generator)]: resume until StopIteration.  Each unit of
    fuel pays for one resumption step. *)
Fixpoint list_ (fuel : nat) (g : list_pager.Pager) : M (list Message) :=
  match fuel with
  | O => out_of_fuel
  | S fuel' =>
      s ← list_pager.step g;
      match s with
      | list_pager.StopIteration => mret []
      | list_pager.Skip g' => list_ fuel' g'
      | list_pager.Yield item g' => (item ::.) <$> list_ fuel' g'
      end
  end.

(** ** The operation waiter (googlecloudsdk.api_lib.util.waiter) *)

Module waiter.

(** Modelled from the spec: the configured constants of the waiter, which
    section 9 leaves to be chosen: the first sleep interval, the factor by
    which it grows, the ceiling that bounds it, and the maximum wait window
    (all in milliseconds, the factor a whole number). *)
Record WaitPolicy := mkWaitPolicy {
  sleep_ms : Z;
  exponential_sleep_multiplier : Z;
  wait_ceiling_ms : Z;
  max_wait_ms : Z
}.

(** Modelled from the spec: "a bounded, possibly exponentially-increasing
    interval". *)
Definition next_interval (policy : WaitPolicy) (interval : Z) : Z :=
  Z.min (wait_ceiling_ms policy) (interval * exponential_sleep_multiplier policy).

(** CloudOperationPollerNoResources(operation_service) *)
Record CloudOperationPollerNoResources := mkPoller {
  operation_service : OperationsService
}.

(** Modelled from the spec: the poll primitive of section 6, one idempotent
    get-operation-status call keyed by the operation, returning its status.
    The status served is the next one of the injected sequence. *)
Definition Poll (poller : CloudOperationPollerNoResources) (operation_ref : ResourceRef)
    : M OperationStatus := fun w =>
  let name := RelativeName operation_ref in
  let k := polls_of name (calls w) in
  (send (CallOperationsGet name);;
   mret (ops_Get (operation_service poller) name k)) w.

(** Modelled from the spec: the loop of section 4.1.  On each poll the
    status is inspected: Done returns the payload, Failed raises at once,
    Pending sleeps for the current interval and retries, unless that sleep
    would leave the maximum wait window, in which case TimeoutError is
    raised.  The loop owns the current interval and the elapsed time. *)
Fixpoint PollUntilDone (fuel : nat) (policy : WaitPolicy)
    (poller : CloudOperationPollerNoResources) (operation_ref : ResourceRef)
    (interval elapsed : Z) : M Message :=
  match fuel with
  | O => out_of_fuel
  | S fuel' =>
      status ← Poll poller operation_ref;
      match status with
      | Done payload => mret payload
      | Failed error => raise (OperationError error)
      | Pending =>
          if decide (max_wait_ms policy < elapsed + interval)%Z then raise TimeoutError
          else
            sleep interval;;
            PollUntilDone fuel' policy poller operation_ref
              (next_interval policy interval) (elapsed + interval)%Z
      end
  end.

(** Modelled from the spec: [Wait(handle, describe) -> Payload] of section
    4.1; waiter.py is not among the sources at hand.  The describe string is
    progress text only.  Cancellation (section 5) and retries of transport
    errors (section 7) are outside this model: the injected service always
    answers. *)
Definition WaitFor (fuel : nat) (policy : WaitPolicy)
    (poller : CloudOperationPollerNoResources) (operation_ref : ResourceRef)
    (message : string) : M Message :=
  PollUntilDone fuel policy poller operation_ref (sleep_ms policy) 0.

End waiter.

(** ** What the module imports from the rest of the SDK *)

(** The imported names whose definitions lie outside this module are taken
    as given: the version table and the client factory of netapp.util, the
    two constants of netapp.constants, the resource registry, the constants
    the waiter is configured with, and the batch size the pager uses when
    its caller names none. *)
Record Imports := mkImports {
  VERSION_MAP : ReleaseTrack -> option string;
  GetClientInstance : ReleaseTrack -> NetappClient;
  OPERATIONS_COLLECTION : string;
  STORAGE_POOL_RESOURCE : string;
  ParseRelativeName : string -> string -> option ResourceRef;
  wait_policy : waiter.WaitPolicy;
  default_batch_size : nat
}.

(** resources.REGISTRY.ParseRelativeName(name, collection=...), which
    raises when the name does not belong to the collection. *)
Definition REGISTRY_ParseRelativeName (env : Imports) (name collection : string)
    : M ResourceRef :=
  match ParseRelativeName env name collection with
  | Some ref => mret ref
  | None => raise (InvalidResource name collection)
  end.

(** [for x in xs: body(x)] *)
Fixpoint for_each {A} (xs : list A) (body : A -> M unit) : M unit :=
  match xs with
  | [] => mret tt
  | x :: xs' => body x;; for_each xs' body
  end.

(** ** class AlphaStoragePoolsAdapter *)

(** The adapter object.  Its [messages] attribute, the module of generated
    message classes, is represented by the record constructors above. *)
Record AlphaStoragePoolsAdapter := mkAdapter {
  release_track : ReleaseTrack;
  adapter_client : NetappClient
}.

Module AlphaStoragePoolsAdapter_.

Definition __init__ (env : Imports) : AlphaStoragePoolsAdapter :=
  mkAdapter ALPHA (GetClientInstance env ALPHA).

(** The parameters are in the order of the source: description, labels,
    capacity. *)
Definition ParseUpdatedStoragePoolConfig (self : AlphaStoragePoolsAdapter)
    (storagepool_config : loc) (description labels capacity : option Value) : M loc :=
  match capacity with
   | Some _ => assign storagepool_config "capacityGib" capacity
   | None => mret tt
   end;;
  match description with
   | Some _ => assign storagepool_config "description" description
   | None => mret tt
   end;;
  match labels with
   | Some _ => assign storagepool_config "labels" labels
   | None => mret tt
   end;;
  mret storagepool_config.

Definition UpdateStoragePool (self : AlphaStoragePoolsAdapter)
    (storagepool_ref : ResourceRef) (storagepool_config : loc) (update_mask : string)
    : M Operation :=
  let update_request :=
    mkPatchRequest storagepool_config (RelativeName storagepool_ref) update_mask in
  update_op ← Patch (projects_locations_storagePools (adapter_client self)) update_request;
  mret update_op.

End AlphaStoragePoolsAdapter_.

(** ** class StoragePoolsClient *)

Record StoragePoolsClient := mkClient { _adapter : AlphaStoragePoolsAdapter }.

(** What a mutating call returns: the accepted operation itself, or the
    payload the waiter resolved it to. *)
Inductive CallResult :=
| Accepted (op : Operation)
| Resolved (payload : Message).

Module StoragePoolsClient_.

(** [release_track] defaults to ALPHA in the source; here it is always
    given. *)
Definition __init__ (env : Imports) (release_track : ReleaseTrack) : M StoragePoolsClient :=
  if decide (release_track = ALPHA) then
    mret (mkClient (AlphaStoragePoolsAdapter_.__init__ env))
  else
    match VERSION_MAP env release_track with
    | Some version => raise (ValueError ("[" +:+ version +:+ "] is not a valid API version."))
    | None => raise (KeyError release_track)
    end.

Definition client (self : StoragePoolsClient) : NetappClient :=
  adapter_client (_adapter self).

Definition WaitForOperation (env : Imports) (fuel : nat) (self : StoragePoolsClient)
    (operation_ref : ResourceRef) : M Message :=
  waiter.WaitFor fuel (wait_policy env)
    (waiter.mkPoller (projects_locations_operations (client self)))
    operation_ref
    ("Waiting for [" +:+ Name operation_ref +:+ "] to finish").

Definition CreateStoragePool (env : Imports) (fuel : nat) (self : StoragePoolsClient)
    (storagepool_ref : ResourceRef) (async_ : bool) (config : loc) : M CallResult :=
  let request :=
    mkCreateRequest (ParentRelativeName storagepool_ref) (Name storagepool_ref) config in
  create_op ← Create (projects_locations_storagePools (client self)) request;
  if async_ then mret (Accepted create_op)
  else
    operation_ref ← REGISTRY_ParseRelativeName env (op_name create_op)
                      (OPERATIONS_COLLECTION env);
    Resolved <$> WaitForOperation env fuel self operation_ref.

Definition ParseStoragePoolConfig (self : StoragePoolsClient)
    (name service_level capacity description labels : option Value) : M loc :=
  storage_pool ← new_message ∅;
  assign storage_pool "name" name;;
  assign storage_pool "serviceLevel" service_level;;
  assign storage_pool "capacityGib" capacity;;
  assign storage_pool "description" description;;
  assign storage_pool "labels" labels;;
  mret storage_pool.

Definition ListStoragePools (env : Imports) (self : StoragePoolsClient)
    (location_ref : string) (limit : option nat) : M list_pager.Pager :=
  let request := mkListRequest location_ref None None in
  response ← List_ (projects_locations_storagePools (client self)) request;
  for_each (unreachable response)
    (fun location => log_warning ("Location " +:+ location +:+ " may be unreachable."));;
  mret (list_pager.YieldFromList (projects_locations_storagePools (client self))
          request (STORAGE_POOL_RESOURCE env) limit (default_batch_size env)).

Definition GetStoragePool (self : StoragePoolsClient) (storagepool_ref : ResourceRef)
    : M Message :=
  let request := mkGetRequest (RelativeName storagepool_ref) in
  Get (projects_locations_storagePools (client self)) request.

Definition _DeleteStoragePool (env : Imports) (fuel : nat) (self : StoragePoolsClient)
    (async_ : bool) (request : DeleteRequest) : M CallResult :=
  delete_op ← Delete (projects_locations_storagePools (client self)) request;
  if async_ then mret (Accepted delete_op)
  else
    operation_ref ← REGISTRY_ParseRelativeName env (op_name delete_op)
                      (OPERATIONS_COLLECTION env);
    Resolved <$> WaitForOperation env fuel self operation_ref.

Definition DeleteStoragePool (env : Imports) (fuel : nat) (self : StoragePoolsClient)
    (storagepool_ref : ResourceRef) (async_ : bool) : M CallResult :=
  let request := mkDeleteRequest (RelativeName storagepool_ref) in
  _DeleteStoragePool env fuel self async_ request.

(** The parameters are in the order of the source: capacity, description,
    labels; the adapter is called with keyword arguments. *)
Definition ParseUpdatedStoragePoolConfig (self : StoragePoolsClient)
    (storagepool_config : loc) (capacity description labels : option Value) : M loc :=
  storage_pool ← AlphaStoragePoolsAdapter_.ParseUpdatedStoragePoolConfig (_adapter self)
                   storagepool_config description labels capacity;
  mret storage_pool.

Definition UpdateStoragePool (env : Imports) (fuel : nat) (self : StoragePoolsClient)
    (storagepool_ref : ResourceRef) (storagepool_config : loc) (update_mask : string)
    (async_ : bool) : M CallResult :=
  update_op ← AlphaStoragePoolsAdapter_.UpdateStoragePool (_adapter self) storagepool_ref
                storagepool_config update_mask;
  if async_ then mret (Accepted update_op)
  else
    operation_ref ← REGISTRY_ParseRelativeName env (op_name update_op)
                      (OPERATIONS_COLLECTION env);
    Resolved <$> WaitForOperation env fuel self operation_ref.

End StoragePoolsClient_.

(** ** The list command (surface/netapp/storage_pools/list.py) *)

(** [s.split(sep)] for a one-character separator: the pieces between the
    separators, of which there is always at least one. *)
Fixpoint str_split (sep : ascii) (s : string) : list string :=
  match s with
  | EmptyString => [EmptyString]
  | String c s' =>
      if decide (c = sep) then EmptyString :: str_split sep s'
      else
        match str_split sep s' with
        | piece :: pieces => String c piece :: pieces
        | [] => [String c EmptyString]
        end
  end.

(** [sep.join(pieces)] *)
Fixpoint str_join (sep : string) (pieces : list string) : string :=
  match pieces with
  | [] => EmptyString
  | [piece] => piece
  | piece :: rest => piece +:+ sep +:+ str_join sep rest
  end.

(** [l[-1] = x]; None stands for the IndexError Python raises on an empty
    list. *)
Definition setitem_last (l : list string) (x : string) : option (list string) :=
  match l with
  | [] => None
  | _ :: _ => Some (<[length l - 1 := x]> l)
  end.

Module ListAlpha.

(** What [Run] reads from its surroundings: the core/project property
    (None when it is not set), the relative name of the parsed location
    concept, and the two flags. *)
Record Args := mkArgs {
  core_project : option string;
  CONCEPTS_location : string;
  args_location : option string;
  args_limit : option nat
}.

Definition _RELEASE_TRACK : ReleaseTrack := ALPHA.

(** [args.location if args.location else '-']: a missing or empty flag
    selects all locations. *)
Definition location_or_all (location : option string) : string :=
  match location with
  | Some l => if decide (l = "") then "-" else l
  | None => "-"
  end.

(** Lines 47 to 52 of [Run]: the last piece of the parsed location name is
    replaced by the location asked for. *)
Definition listing_parent (location_ref : string) (location : option string)
    : option string :=
  let location := location_or_all location in
  let location_list := str_split "/"%char location_ref in
  location_list ← setitem_last location_list location;
  Some (str_join "/" location_list).

(** How [Run] ends: with one of the two exceptions that are not raised by
    the API wrapper, or with the outcome of the wrapper and the world it
    leaves. *)
Inductive RunResult :=
| RequiredPropertyError
| IndexError
| Ran (r : Outcome (list Message) * World).

(** [ListAlpha.Run]: the project must be set; the parent to list under is
    computed from the parsed location name and the location flag; the client
    is constructed for the release track of the command and the whole
    listing is collected into a list. *)
Definition Run (env : Imports) (fuel : nat) (args : Args) (w : World) : RunResult :=
  match core_project args with
  | None => RequiredPropertyError
  | Some _ =>
      match listing_parent (CONCEPTS_location args) (args_location args) with
      | None => IndexError
      | Some location_ref =>
          Ran (run (client ← StoragePoolsClient_.__init__ env _RELEASE_TRACK;
                    pools ← StoragePoolsClient_.ListStoragePools env client location_ref
                              (args_limit args);
                    list_ fuel pools) w)
      end
  end.

End ListAlpha.

(** ** Sample services and worlds *)

Module Sample.

Definition pool_a : Message := {[ "name" := VStr "pool-a" ]}.
Definition pool_b : Message := {[ "name" := VStr "pool-b" ]}.
Definition pool_c : Message := {[ "name" := VStr "pool-c" ]}.
Definition pool_d : Message := {[ "name" := VStr "pool-d" ]}.
Definition pool_e : Message := {[ "name" := VStr "pool-e" ]}.

(** A pool as the server describes it: capacity and description are set. *)
Definition existing_pool : Message :=
  {[ "name" := VStr "pool-a"; "capacityGib" := VInt 2048;
     "description" := VStr "old" ]}.

Definition page (items : list Message) (unreach : list string) (next : option string)
    : ListResponse :=
  mkListResponse (fun field => if decide (field = "storagePools") then items else [])
                 unreach next.

(** Five pools on two pages; each page reports one unreachable location. *)
Definition page1 : ListResponse :=
  page [pool_a; pool_b; pool_c] ["us-east1"] (Some "t2").
Definition page2 : ListResponse := page [pool_d; pool_e] ["us-west1"] None.

Definition list_handler (request : ListRequest) : ListResponse :=
  match lr_pageToken request with
  | None => page1
  | Some t => if decide (t = "t2") then page2 else page [] [] None
  end.

(** Operation "op/slow" is pending twice and then done; "op/bad" fails at
    once; "op/stuck" stays pending; every other operation is done at once. *)
Definition status_script (name : string) (k : nat) : OperationStatus :=
  if decide (name = "op/slow") then
    match k with
    | 0 | 1 => Pending
    | _ => Done existing_pool
    end
  else if decide (name = "op/bad") then Failed (mkErrorInfo 9 "quota exceeded")
  else if decide (name = "op/stuck") then Pending
  else Done existing_pool.

Definition service : StoragePoolsService :=
  mkStoragePoolsService
    (fun _ _ _ => mkOperation "op/slow")
    (fun _ => mkOperation "op/slow")
    (fun _ _ _ => mkOperation "op/slow")
    list_handler
    (fun _ => existing_pool).

Definition api : NetappClient :=
  mkNetappClient service (mkOperationsService status_script).

Definition policy : waiter.WaitPolicy := waiter.mkWaitPolicy 2000 2 16000 60000.

Definition env : Imports :=
  mkImports
    (fun t => match t with ALPHA => Some "v1alpha1" | BETA => Some "v1beta1" | GA => None end)
    (fun _ => api)
    "netapp.projects.locations.operations"
    "storagePools"
    (fun name _ => Some (mkRef name name ""))
    policy
    100.

Definition self : StoragePoolsClient :=
  mkClient (AlphaStoragePoolsAdapter_.__init__ env).

Definition pool_ref : ResourceRef :=
  mkRef "projects/p/locations/l/storagePools/pool-a" "pool-a" "projects/p/locations/l".

Definition op_ref (name : string) : ResourceRef := mkRef name name "".

Definition all_locations : string := "projects/p/locations/-".

Definition empty_world : World := mkWorld [] [] [] 0.

(** A world holding one message object, the pool as fetched from the
    server. *)
Definition world1 : World := mkWorld [existing_pool] [] [] 0.

(** The sample world after request [c] and the three polls that resolve
    operation "op/slow". *)
Definition after_wait (c : NetCall) : World :=
  mkWorld [existing_pool] (c :: replicate 3 (CallOperationsGet "op/slow")) [] 6000.

End Sample.

(** A second environment, whose registry resolves no operation name, and
    arguments of the list command. *)
Module SampleRun.

Definition env_unresolved : Imports :=
  mkImports (VERSION_MAP Sample.env) (GetClientInstance Sample.env)
    (OPERATIONS_COLLECTION Sample.env) (STORAGE_POOL_RESOURCE Sample.env)
    (fun _ _ => None) (wait_policy Sample.env) (default_batch_size Sample.env).

Definition self_unresolved : StoragePoolsClient :=
  mkClient (AlphaStoragePoolsAdapter_.__init__ env_unresolved).


(** The list command run without a location flag. *)
Definition args_all : ListAlpha.Args :=
  ListAlpha.mkArgs (Some "p") "projects/p/locations/us-east1" None (Some 2).

End SampleRun.

(** ** Vocabulary of the statements *)

(** The five fields ParseStoragePoolConfig assigns. *)
Definition create_fields : list string :=
  ["name"; "serviceLevel"; "capacityGib"; "description"; "labels"].

(** The three fields ParseUpdatedStoragePoolConfig may assign. *)
Definition update_fields : list string := ["capacityGib"; "description"; "labels"].

(** A field after a guarded assignment [if v is not None: m.field = v]. *)
Definition assign_if_given (m : Message) (field : string) (v : option Value) : Message :=
  match v with
  | Some _ => setattr m field v
  | None => m
  end.

(** The constants of the waiter make sense: the first interval and the
    ceiling are positive, the interval does not shrink, and the window is
    not negative. *)
Definition valid_policy (policy : waiter.WaitPolicy) : Prop :=
  (0 < waiter.sleep_ms policy)%Z /\
  (1 <= waiter.exponential_sleep_multiplier policy)%Z /\
  (0 < waiter.wait_ceiling_ms policy)%Z /\
  (0 <= waiter.max_wait_ms policy)%Z.

(** The shortest interval the waiter ever sleeps. *)
Definition min_interval (policy : waiter.WaitPolicy) : Z :=
  Z.min (waiter.sleep_ms policy) (waiter.wait_ceiling_ms policy).

(** Polls after which an operation that stays pending has timed out. *)
Definition timeout_fuel (policy : waiter.WaitPolicy) : nat :=
  S (Z.to_nat (waiter.max_wait_ms policy / min_interval policy)).

(** The world after one more request has been sent. *)
Definition sent (w : World) (c : NetCall) : World :=
  mkWorld (heap w) (calls w ++ [c]) (warnings w) (clock w).

(** What a synchronous call makes of the outcome of the waiter. *)
Definition resolved (out : Outcome Message) : Outcome CallResult :=
  match out with
  | Ok payload => Ok (Resolved payload)
  | Raise e => Raise e
  | OutOfFuel => OutOfFuel
  end.

Definition is_poll (c : NetCall) : Prop :=
  match c with
  | CallOperationsGet _ => True
  | _ => False
  end.

(** The request the claim of section 8 expects from an update that gives
    only a description: description set, capacity and labels unset, and a
    mask naming description alone. *)
Definition description_only_request (c : NetCall) : Prop :=
  match c with
  | CallPatch _ mask body =>
      is_Some (body !! "description") /\ body !! "capacityGib" = None /\
      body !! "labels" = None /\ mask = "description"
  | _ => False
  end.

(** The service answers as a paginated source: asked for [parent] from
    [token] on, whatever page size is requested, it serves [pages] in order,
    each page but the last carrying the token of the next. *)
Inductive paginated (handler : ListRequest -> ListResponse) (parent : string)
    : option string -> list ListResponse -> Prop :=
| paginated_last token page :
    (forall size, handler (mkListRequest parent token size) = page) ->
    list_pager.no_token (nextPageToken page) = true ->
    paginated handler parent token [page]
| paginated_next token page pages :
    (forall size, handler (mkListRequest parent token size) = page) ->
    list_pager.no_token (nextPageToken page) = false ->
    paginated handler parent (nextPageToken page) pages ->
    paginated handler parent token (page :: pages).

(** All items the source holds, in order. *)
Definition all_items (field : string) (pages : list ListResponse) : list Message :=
  concat (map (fun page => repeated page field) pages).

(** All unreachable locations the pages report. *)
Definition all_unreachable (pages : list ListResponse) : list string :=
  concat (map unreachable pages).

(** The unreachable locations of the first page. *)
Definition first_unreachable (pages : list ListResponse) : list string :=
  match pages with
  | page :: _ => unreachable page
  | [] => []
  end.

(** The least number of pages, taken from the front, that hold [n] items
    (all pages when there are fewer than [n] items). *)
Fixpoint pages_needed (field : string) (n : nat) (pages : list ListResponse) : nat :=
  match n, pages with
  | O, _ => 0
  | _, [] => 0
  | _, page :: rest =>
      S (pages_needed field (n - length (repeated page field)) rest)
  end.

Definition take_limit {A} (limit : option nat) (xs : list A) : list A :=
  match limit with
  | Some n => take n xs
  | None => xs
  end.

Definition pages_fetched (field : string) (limit : option nat) (pages : list ListResponse)
    : nat :=
  match limit with
  | Some n => pages_needed field n pages
  | None => length pages
  end.

(** Resumption steps that suffice to drain the pager over [pages]. *)
Fixpoint drain_fuel (field : string) (pages : list ListResponse) : nat :=
  match pages with
  | [] => 0
  | page :: rest => 2 + length (repeated page field) + drain_fuel field rest
  end.

(** The text of the warning for one location. *)
Definition unreachable_warning (location : string) : string :=
  "Location " +:+ location +:+ " may be unreachable.".

(** The pager suspended at the head of its loop. *)
Definition pager_at_head (svc : StoragePoolsService) (parent : string)
    (token : option string) (size : option nat) (field : string) (limit : option nat)
    (batch_size : nat) : list_pager.Pager :=
  list_pager.mkPager svc (mkListRequest parent token size) field limit batch_size
    [] None list_pager.AtLoopHead.

(** The pager suspended inside a page, with [items] still to yield. *)
Definition pager_in_page (svc : StoragePoolsService) (request : ListRequest)
    (field : string) (limit : option nat) (batch_size : nat) (items : list Message)
    (token : option string) : list_pager.Pager :=
  list_pager.mkPager svc request field limit batch_size items token list_pager.InPage.

(** Items put in front of the outcome of the rest of a listing. *)
Definition prepend (xs : list Message) (r : Outcome (list Message) * World)
    : Outcome (list Message) * World :=
  match r with
  | (Ok ys, w) => (Ok (xs ++ ys)%list, w)
  | other => other
  end.

(** The later of two optional arguments, when it is given. *)
Definition or_else {A} (later earlier : option A) : option A :=
  match later with
  | Some _ => later
  | None => earlier
  end.

(** A message after the three guarded assignments of the update builder. *)
Definition updated (m : Message) (capacity description labels : option Value) : Message :=
  assign_if_given
    (assign_if_given (assign_if_given m "capacityGib" capacity) "description" description)
    "labels" labels.

(** The message the create builder fills in. *)
Definition new_pool (name service_level capacity description labels : option Value)
    : Message :=
  setattr (setattr (setattr (setattr (setattr ∅ "name" name)
    "serviceLevel" service_level) "capacityGib" capacity)
    "description" description) "labels" labels.

(** Whether character [c] occurs in [s]. *)
Fixpoint contains (c : ascii) (s : string) : bool :=
  match s with
  | EmptyString => false
  | String c' s' => if decide (c' = c) then true else contains c s'
  end.

(** * Properties *)

(** ** Reasoning about the monad *)

Lemma run_bind {A B} (m : M A) (k : A -> M B) w :
  run (m ≫= k) w =
  match run m w with
  | (Ok a, w') => run (k a) w'
  | (Raise e, w') => (Raise e, w')
  | (OutOfFuel, w') => (OutOfFuel, w')
  end.
Proof. reflexivity. Qed.

Lemma run_fmap {A B} (f : A -> B) (m : M A) w :
  run (f <$> m) w =
  match run m w with
  | (Ok a, w') => (Ok (f a), w')
  | (Raise e, w') => (Raise e, w')
  | (OutOfFuel, w') => (OutOfFuel, w')
  end.
Proof. reflexivity. Qed.

Lemma run_ret {A} (a : A) w : run (mret a) w = (Ok a, w).
Proof. reflexivity. Qed.

Lemma run_assign l field v m w :
  heap w !! l = Some m ->
  run (assign l field v) w =
  (Ok tt, mkWorld (<[l := setattr m field v]> (heap w)) (calls w) (warnings w) (clock w)).
Proof. intros H. unfold run, assign. by rewrite H. Qed.

Lemma run_read_message l m w :
  heap w !! l = Some m -> run (read_message l) w = (Ok m, w).
Proof. intros H. unfold run, read_message. by rewrite H. Qed.

Lemma run_new_message m w :
  run (new_message m) w =
  (Ok (length (heap w)), mkWorld (heap w ++ [m]) (calls w) (warnings w) (clock w)).
Proof. reflexivity. Qed.

Lemma run_send c w :
  run (send c) w = (Ok tt, mkWorld (heap w) (calls w ++ [c]) (warnings w) (clock w)).
Proof. reflexivity. Qed.

Lemma run_raise {A} e w : run (raise e : M A) w = (Raise e, w).
Proof. reflexivity. Qed.

Lemma world_eta w : mkWorld (heap w) (calls w) (warnings w) (clock w) = w.
Proof. by destruct w. Qed.

(** Assigning to the object allocated last. *)
Lemma run_assign_last (h : list Message) m field v cs ws t :
  run (assign (length h) field v) (mkWorld (h ++ [m]) cs ws t) =
  (Ok tt, mkWorld (h ++ [setattr m field v]) cs ws t).
Proof.
  rewrite (run_assign _ _ _ m); simpl.
  - rewrite insert_app_r_alt by lia. by rewrite Nat.sub_diag.
  - by rewrite list_lookup_middle.
Qed.

(** ** The request builders *)

(** C10: ParseStoragePoolConfig returns a message object that did not exist
    before, leaves every existing object and the rest of the world alone,
    and the new message reads back exactly the five arguments (None for an
    argument that is None) and has no other field set. *)
Theorem ParseStoragePoolConfig_fresh_message
    (self : StoragePoolsClient) (name service_level capacity description labels : option Value)
    (w : World) :
  exists m : Message,
    run (StoragePoolsClient_.ParseStoragePoolConfig self name service_level capacity
           description labels) w
    = (Ok (length (heap w)),
       mkWorld (heap w ++ [m]) (calls w) (warnings w) (clock w))
    /\ heap w !! length (heap w) = None
    /\ m !! "name" = name
    /\ m !! "serviceLevel" = service_level
    /\ m !! "capacityGib" = capacity
    /\ m !! "description" = description
    /\ m !! "labels" = labels
    /\ (forall field, field ∉ create_fields -> m !! field = None).
Proof.
  exists (setattr (setattr (setattr (setattr (setattr ∅ "name" name)
            "serviceLevel" service_level) "capacityGib" capacity)
            "description" description) "labels" labels).
  split.
  { unfold StoragePoolsClient_.ParseStoragePoolConfig.
    rewrite run_bind, run_new_message.
    repeat (rewrite run_bind, run_assign_last).
    by rewrite run_ret. }
  split; [apply lookup_ge_None_2; lia|].
  unfold create_fields.
  destruct name, service_level, capacity, description, labels; simpl;
    repeat split; try (by simplify_map_eq);
    intros field Hf; repeat (apply not_elem_of_cons in Hf as [? Hf]);
    by simplify_map_eq.
Qed.

Lemma run_guarded_assign l field v (m0 m : Message) h cs ws t :
  h !! l = Some m0 ->
  run (match v with
       | Some _ => assign l field v
       | None => mret tt
       end) (mkWorld (<[l := m]> h) cs ws t)
  = (Ok tt, mkWorld (<[l := assign_if_given m field v]> h) cs ws t).
Proof.
  intros Hl. apply lookup_lt_Some in Hl.
  destruct v as [x|]; simpl; [|apply run_ret].
  rewrite (run_assign _ _ _ m); simpl.
  - by rewrite list_insert_insert_eq.
  - by apply list_lookup_insert_eq.
Qed.

Lemma assign_if_given_lookup m field v :
  assign_if_given m field v !! field =
  match v with
  | Some x => Some x
  | None => m !! field
  end.
Proof. destruct v; simpl; by simplify_map_eq. Qed.

Lemma assign_if_given_other m field v other :
  other <> field -> assign_if_given m field v !! other = m !! other.
Proof. intros Hne. destruct v; simpl; by simplify_map_eq. Qed.

Lemma adapter_ParseUpdatedStoragePoolConfig_run adapter cfg description labels capacity m w :
  heap w !! cfg = Some m ->
  run (AlphaStoragePoolsAdapter_.ParseUpdatedStoragePoolConfig adapter cfg
         description labels capacity) w
  = (Ok cfg,
     mkWorld (<[cfg := assign_if_given
                         (assign_if_given (assign_if_given m "capacityGib" capacity)
                            "description" description)
                         "labels" labels]> (heap w))
             (calls w) (warnings w) (clock w)).
Proof.
  intros Hm. unfold AlphaStoragePoolsAdapter_.ParseUpdatedStoragePoolConfig.
  rewrite <- (world_eta w) at 1. rewrite <- (list_insert_id _ _ _ Hm) at 1.
  do 3 (rewrite run_bind, (run_guarded_assign _ _ _ m) by done).
  apply run_ret.
Qed.

(** C9: ParseUpdatedStoragePoolConfig, on the client and on the adapter
    alike, returns the reference it was given; the object behind it has each
    of capacityGib, description and labels equal to the argument when the
    argument is not None and equal to its old value otherwise; every other
    field keeps its value, and so do all other objects, the call log, the
    warnings and the clock. *)
Theorem ParseUpdatedStoragePoolConfig_writes_only_given
    (self : StoragePoolsClient) (cfg : nat) (capacity description labels : option Value)
    (m : Message) (w : World) :
  heap w !! cfg = Some m ->
  exists m' : Message,
    run (StoragePoolsClient_.ParseUpdatedStoragePoolConfig self cfg capacity
           description labels) w
    = (Ok cfg, mkWorld (<[cfg := m']> (heap w)) (calls w) (warnings w) (clock w))
    /\ run (AlphaStoragePoolsAdapter_.ParseUpdatedStoragePoolConfig (_adapter self) cfg
              description labels capacity) w
       = (Ok cfg, mkWorld (<[cfg := m']> (heap w)) (calls w) (warnings w) (clock w))
    /\ m' !! "capacityGib" = match capacity with Some v => Some v | None => m !! "capacityGib" end
    /\ m' !! "description" = match description with Some v => Some v | None => m !! "description" end
    /\ m' !! "labels" = match labels with Some v => Some v | None => m !! "labels" end
    /\ (forall field, field ∉ update_fields -> m' !! field = m !! field).
Proof.
  intros Hm. eexists. split; [|split].
  - unfold StoragePoolsClient_.ParseUpdatedStoragePoolConfig.
    rewrite run_bind, (adapter_ParseUpdatedStoragePoolConfig_run _ _ _ _ _ m) by done.
    apply run_ret.
  - by apply adapter_ParseUpdatedStoragePoolConfig_run.
  - repeat split.
    + rewrite !assign_if_given_other by done. apply assign_if_given_lookup.
    + rewrite assign_if_given_other by done.
      rewrite assign_if_given_lookup.
      destruct description; [done|]. by rewrite assign_if_given_other.
    + rewrite assign_if_given_lookup.
      destruct labels; [done|]. by rewrite !assign_if_given_other.
    + intros field Hf. unfold update_fields in Hf.
      repeat (apply not_elem_of_cons in Hf as [? Hf]).
      by rewrite !assign_if_given_other.
Qed.

(** C9, at a concrete store: only the description of the pool is given. *)
Lemma ParseUpdatedStoragePoolConfig_writes_only_given_witness :
  exists m' : Message,
    run (StoragePoolsClient_.ParseUpdatedStoragePoolConfig Sample.self 0 None
           (Some (VStr "new")) None) Sample.world1
    = (Ok 0, mkWorld (<[0 := m']> (heap Sample.world1)) (calls Sample.world1)
                (warnings Sample.world1) (clock Sample.world1))
    /\ run (AlphaStoragePoolsAdapter_.ParseUpdatedStoragePoolConfig
              (_adapter Sample.self) 0 (Some (VStr "new")) None None) Sample.world1
       = (Ok 0, mkWorld (<[0 := m']> (heap Sample.world1)) (calls Sample.world1)
                   (warnings Sample.world1) (clock Sample.world1))
    /\ m' !! "capacityGib" = Sample.existing_pool !! "capacityGib"
    /\ m' !! "description" = Some (VStr "new")
    /\ m' !! "labels" = Sample.existing_pool !! "labels"
    /\ (forall field, field ∉ update_fields -> m' !! field = Sample.existing_pool !! field).
Proof.
  apply (ParseUpdatedStoragePoolConfig_writes_only_given Sample.self 0 None
           (Some (VStr "new")) None Sample.existing_pool Sample.world1).
  reflexivity.
Defined.

(** ** The operation waiter *)

Lemma polls_of_app name cs1 cs2 :
  polls_of name (cs1 ++ cs2) = polls_of name cs1 + polls_of name cs2.
Proof.
  induction cs1 as [|c cs1 IH]; [done|].
  destruct c; simpl; rewrite ?IH; lia.
Qed.

Lemma polls_of_poll name cs :
  polls_of name (cs ++ [CallOperationsGet name]) = S (polls_of name cs).
Proof. rewrite polls_of_app. simpl. case_decide; [lia|done]. Qed.

Lemma run_Poll poller ref w :
  run (waiter.Poll poller ref) w =
  (Ok (ops_Get (waiter.operation_service poller) (RelativeName ref)
         (polls_of (RelativeName ref) (calls w))),
   mkWorld (heap w) (calls w ++ [CallOperationsGet (RelativeName ref)])
           (warnings w) (clock w)).
Proof. reflexivity. Qed.

Lemma run_PollUntilDone_S fuel policy poller ref interval elapsed w :
  run (waiter.PollUntilDone (S fuel) policy poller ref interval elapsed) w =
  let w1 := mkWorld (heap w) (calls w ++ [CallOperationsGet (RelativeName ref)])
                    (warnings w) (clock w) in
  match ops_Get (waiter.operation_service poller) (RelativeName ref)
          (polls_of (RelativeName ref) (calls w)) with
  | Done payload => (Ok payload, w1)
  | Failed error => (Raise (OperationError error), w1)
  | Pending =>
      if decide (waiter.max_wait_ms policy < elapsed + interval)%Z
      then (Raise TimeoutError, w1)
      else run (waiter.PollUntilDone fuel policy poller ref
                  (waiter.next_interval policy interval) (elapsed + interval)%Z)
               (mkWorld (heap w) (calls w1) (warnings w) (clock w + interval)%Z)
  end.
Proof.
  simpl. rewrite run_bind, run_Poll.
  destruct (ops_Get _ _ _); [|done|done].
  case_decide; done.
Qed.

(** The waiter touches nothing but the call log, to which it adds polls of
    its operation only, and the clock. *)
Lemma PollUntilDone_effects fuel policy poller ref :
  forall interval elapsed w out w',
    run (waiter.PollUntilDone fuel policy poller ref interval elapsed) w = (out, w') ->
    heap w' = heap w /\ warnings w' = warnings w /\
    exists n, calls w' = (calls w ++ replicate n (CallOperationsGet (RelativeName ref)))%list.
Proof.
  induction fuel as [|fuel IH]; intros interval elapsed w out w' Hrun.
  - inversion Hrun; subst. repeat split. exists 0. by rewrite app_nil_r.
  - rewrite run_PollUntilDone_S in Hrun. cbv zeta in Hrun.
    destruct (ops_Get _ _ _).
    + case_decide.
      * inversion Hrun; subst; simpl. repeat split. by exists 1.
      * apply IH in Hrun as (Hh & Hw & n & Hc). simpl in *.
        repeat split; [done..|]. exists (S n).
        rewrite Hc, <- app_assoc. done.
    + inversion Hrun; subst; simpl. repeat split. by exists 1.
    + inversion Hrun; subst; simpl. repeat split. by exists 1.
Qed.

(** C4: when the next three statuses of the operation are Pending, Pending
    and Done P, and the two sleeps fit in the maximum wait window,
    WaitForOperation returns P; the call log grows by exactly three polls of
    that operation and the clock by the two sleep intervals. *)
Theorem WaitForOperation_pending_pending_done
    (env : Imports) (fuel : nat) (self : StoragePoolsClient) (operation_ref : ResourceRef)
    (P : Message) (w : World) :
  let ops := projects_locations_operations (StoragePoolsClient_.client self) in
  let name := RelativeName operation_ref in
  let k := polls_of name (calls w) in
  let s0 := waiter.sleep_ms (wait_policy env) in
  let s1 := waiter.next_interval (wait_policy env) s0 in
  ops_Get ops name k = Pending ->
  ops_Get ops name (k + 1) = Pending ->
  ops_Get ops name (k + 2) = Done P ->
  (s0 <= waiter.max_wait_ms (wait_policy env))%Z ->
  (s0 + s1 <= waiter.max_wait_ms (wait_policy env))%Z ->
  3 <= fuel ->
  run (StoragePoolsClient_.WaitForOperation env fuel self operation_ref) w
  = (Ok P,
     mkWorld (heap w) (calls w ++ replicate 3 (CallOperationsGet name)) (warnings w)
             (clock w + s0 + s1)%Z).
Proof.
  intros ops name k s0 s1 H0 H1 H2 Hs0 Hs1 Hfuel.
  destruct fuel as [|[|[|fuel]]]; [lia..|].
  unfold StoragePoolsClient_.WaitForOperation, waiter.WaitFor.
  rewrite run_PollUntilDone_S; cbv zeta; cbn [waiter.operation_service].
  fold ops name k. rewrite H0.
  rewrite decide_False by (fold s0; lia).
  rewrite run_PollUntilDone_S; cbv zeta; cbn [waiter.operation_service calls].
  fold ops name. rewrite polls_of_poll. fold k.
  replace (S k) with (k + 1) by lia. rewrite H1.
  fold s0 s1. rewrite decide_False by lia.
  rewrite run_PollUntilDone_S; cbv zeta;
    cbn [waiter.operation_service calls heap warnings clock].
  fold ops name. rewrite !polls_of_poll. fold k.
  replace (S (S k)) with (k + 2) by lia. rewrite H2.
  rewrite <- !app_assoc. done.
Qed.

(** C5: when the next status of the operation is Failed E, WaitForOperation
    raises OperationError E after exactly one poll, without sleeping. *)
Theorem WaitForOperation_failed_first
    (env : Imports) (fuel : nat) (self : StoragePoolsClient) (operation_ref : ResourceRef)
    (E : ErrorInfo) (w : World) :
  let ops := projects_locations_operations (StoragePoolsClient_.client self) in
  let name := RelativeName operation_ref in
  ops_Get ops name (polls_of name (calls w)) = Failed E ->
  1 <= fuel ->
  run (StoragePoolsClient_.WaitForOperation env fuel self operation_ref) w
  = (Raise (OperationError E),
     mkWorld (heap w) (calls w ++ [CallOperationsGet name]) (warnings w) (clock w)).
Proof.
  intros ops name HE Hfuel.
  destruct fuel as [|fuel]; [lia|].
  unfold StoragePoolsClient_.WaitForOperation, waiter.WaitFor.
  rewrite run_PollUntilDone_S; cbv zeta; simpl waiter.operation_service.
  fold ops name. by rewrite HE.
Qed.

Lemma next_interval_lower policy interval :
  valid_policy policy ->
  (min_interval policy <= interval)%Z ->
  (min_interval policy <= waiter.next_interval policy interval)%Z.
Proof.
  unfold valid_policy, min_interval, waiter.next_interval.
  intros (Hs & Hm & Hc & _) Hi. nia.
Qed.

(** While the operation stays pending, every sleep advances the elapsed
    time by at least the shortest interval, so the window runs out. *)
Lemma PollUntilDone_pending_times_out policy poller ref :
  valid_policy policy ->
  (forall j, ops_Get (waiter.operation_service poller) (RelativeName ref) j = Pending) ->
  forall fuel interval elapsed w,
    (min_interval policy <= interval)%Z ->
    (elapsed <= waiter.max_wait_ms policy)%Z ->
    (waiter.max_wait_ms policy - elapsed < Z.of_nat fuel * min_interval policy)%Z ->
    exists w',
      run (waiter.PollUntilDone fuel policy poller ref interval elapsed) w
      = (Raise TimeoutError, w')
      /\ (clock w <= clock w' <= clock w + (waiter.max_wait_ms policy - elapsed))%Z.
Proof.
  intros Hvalid Hpending.
  assert (0 < min_interval policy)%Z as Hmin
    by (destruct Hvalid as (? & _ & ? & _); unfold min_interval; lia).
  induction fuel as [|fuel IH]; intros interval elapsed w Hi He Hfuel; [lia|].
  rewrite run_PollUntilDone_S; cbv zeta. rewrite Hpending.
  case_decide as Hcmp.
  - eexists. split; [done|]. simpl. lia.
  - destruct (IH (waiter.next_interval policy interval) (elapsed + interval)%Z
                (mkWorld (heap w)
                   (calls w ++ [CallOperationsGet (RelativeName ref)])
                   (warnings w) (clock w + interval)%Z))
      as (w' & Hrun & Hclock).
    + by apply next_interval_lower.
    + lia.
    + lia.
    + exists w'. split; [done|]. simpl in Hclock. lia.
Qed.

(** C6: when the operation never leaves Pending, WaitForOperation raises
    TimeoutError for every fuel from [timeout_fuel] on, so the loop ends;
    the time slept stays within the maximum wait window. *)
Theorem WaitForOperation_pending_forever_times_out
    (env : Imports) (fuel : nat) (self : StoragePoolsClient) (operation_ref : ResourceRef)
    (w : World) :
  valid_policy (wait_policy env) ->
  (forall j, ops_Get (projects_locations_operations (StoragePoolsClient_.client self))
               (RelativeName operation_ref) j = Pending) ->
  timeout_fuel (wait_policy env) <= fuel ->
  exists w',
    run (StoragePoolsClient_.WaitForOperation env fuel self operation_ref) w
    = (Raise TimeoutError, w')
    /\ (clock w <= clock w' <= clock w + waiter.max_wait_ms (wait_policy env))%Z.
Proof.
  intros Hvalid Hpending Hfuel.
  unfold StoragePoolsClient_.WaitForOperation, waiter.WaitFor.
  assert (0 < min_interval (wait_policy env))%Z as Hmin
    by (destruct Hvalid as (? & _ & ? & _); unfold min_interval; lia).
  destruct (PollUntilDone_pending_times_out (wait_policy env)
              (waiter.mkPoller (projects_locations_operations
                                  (StoragePoolsClient_.client self)))
              operation_ref Hvalid Hpending fuel
              (waiter.sleep_ms (wait_policy env)) 0%Z w)
    as (w' & Hrun & Hclock).
  - unfold min_interval. lia.
  - by destruct Hvalid as (_ & _ & _ & ?).
  - unfold timeout_fuel in Hfuel.
    pose proof (Z.mul_succ_div_gt (waiter.max_wait_ms (wait_policy env))
                  (min_interval (wait_policy env)) Hmin) as Hdiv.
    assert (0 <= waiter.max_wait_ms (wait_policy env) / min_interval (wait_policy env))%Z
      by (apply Z.div_pos; [by destruct Hvalid as (_ & _ & _ & ?)|done]).
    nia.
  - exists w'. split; [done|lia].
Qed.

(** C4, on the sample service: operation "op/slow". *)
Lemma WaitForOperation_pending_pending_done_witness :
  run (StoragePoolsClient_.WaitForOperation Sample.env 3 Sample.self
         (Sample.op_ref "op/slow")) Sample.empty_world
  = (Ok Sample.existing_pool,
     mkWorld [] (replicate 3 (CallOperationsGet "op/slow")) [] 6000).
Proof.
  apply (WaitForOperation_pending_pending_done Sample.env 3 Sample.self
           (Sample.op_ref "op/slow") Sample.existing_pool Sample.empty_world);
    solve [reflexivity | vm_compute; congruence | lia].
Defined.

(** C5, on the sample service: operation "op/bad". *)
Lemma WaitForOperation_failed_first_witness :
  run (StoragePoolsClient_.WaitForOperation Sample.env 1 Sample.self
         (Sample.op_ref "op/bad")) Sample.empty_world
  = (Raise (OperationError (mkErrorInfo 9 "quota exceeded")),
     mkWorld [] [CallOperationsGet "op/bad"] [] 0).
Proof.
  apply (WaitForOperation_failed_first Sample.env 1 Sample.self
           (Sample.op_ref "op/bad") (mkErrorInfo 9 "quota exceeded") Sample.empty_world);
    [reflexivity | lia].
Defined.

(** C6, on the sample service: operation "op/stuck" under the sample
    policy. *)
Lemma WaitForOperation_pending_forever_times_out_witness :
  exists w',
    run (StoragePoolsClient_.WaitForOperation Sample.env 40 Sample.self
           (Sample.op_ref "op/stuck")) Sample.empty_world
    = (Raise TimeoutError, w')
    /\ (0 <= clock w' <= 0 + 60000)%Z.
Proof.
  apply (WaitForOperation_pending_forever_times_out Sample.env 40 Sample.self
           (Sample.op_ref "op/stuck") Sample.empty_world).
  - unfold valid_policy; simpl; lia.
  - intros j. reflexivity.
  - vm_compute. lia.
Defined.

(** ** Construction *)






(** ** Create, delete and update *)

Lemma run_Create svc request m w :
  heap w !! cr_storagePool request = Some m ->
  run (Create svc request) w
  = (Ok (sp_Create svc (cr_parent request) (cr_storagePoolId request) m),
     sent w (CallCreate (cr_parent request) (cr_storagePoolId request) m)).
Proof.
  intros Hm. unfold Create.
  rewrite run_bind, (run_read_message _ m) by done.
  by rewrite run_bind, run_send, run_ret.
Qed.

Lemma run_Delete svc request w :
  run (Delete svc request) w
  = (Ok (sp_Delete svc (dr_name request)), sent w (CallDelete (dr_name request))).
Proof. reflexivity. Qed.

Lemma run_Patch svc request m w :
  heap w !! pr_storagePool request = Some m ->
  run (Patch svc request) w
  = (Ok (sp_Patch svc (pr_name request) (pr_updateMask request) m),
     sent w (CallPatch (pr_name request) (pr_updateMask request) m)).
Proof.
  intros Hm. unfold Patch.
  rewrite run_bind, (run_read_message _ m) by done.
  by rewrite run_bind, run_send, run_ret.
Qed.

(** The part the three mutating methods share: wait for the accepted
    operation, having resolved its name to a reference. *)
Lemma run_parse_then_wait env fuel self (op : Operation) operation_ref w out w' :
  ParseRelativeName env (op_name op) (OPERATIONS_COLLECTION env) = Some operation_ref ->
  run (StoragePoolsClient_.WaitForOperation env fuel self operation_ref) w = (out, w') ->
  run (REGISTRY_ParseRelativeName env (op_name op) (OPERATIONS_COLLECTION env)
       ≫= λ operation_ref,
            Resolved <$> StoragePoolsClient_.WaitForOperation env fuel self operation_ref) w
  = (resolved out, w').
Proof.
  intros Hparse Hwait. unfold REGISTRY_ParseRelativeName. rewrite Hparse.
  rewrite run_bind, run_ret, run_fmap, Hwait. by destruct out.
Qed.

(** C8: with the async flag set, create, delete and update each send their
    one request and return the accepted operation as the service answered
    it, with no poll; with the flag unset, and the operation name resolved
    to a reference, each returns what the waiter makes of that reference,
    started right after the request: the payload when the waiter returns
    one. *)
Theorem mutating_calls_return_operation_or_wait
    (env : Imports) (fuel : nat) (self : StoragePoolsClient) (storagepool_ref : ResourceRef)
    (config : nat) (update_mask : string) (m : Message) (w : World) :
  heap w !! config = Some m ->
  let svc := projects_locations_storagePools (StoragePoolsClient_.client self) in
  let create_call :=
    CallCreate (ParentRelativeName storagepool_ref) (Name storagepool_ref) m in
  let create_op := sp_Create svc (ParentRelativeName storagepool_ref) (Name storagepool_ref) m in
  let delete_call := CallDelete (RelativeName storagepool_ref) in
  let delete_op := sp_Delete svc (RelativeName storagepool_ref) in
  let update_call := CallPatch (RelativeName storagepool_ref) update_mask m in
  let update_op := sp_Patch svc (RelativeName storagepool_ref) update_mask m in
  let waits (op : Operation) (w1 : World) (result : Outcome CallResult * World) :=
    forall operation_ref out w',
      ParseRelativeName env (op_name op) (OPERATIONS_COLLECTION env) = Some operation_ref ->
      run (StoragePoolsClient_.WaitForOperation env fuel self operation_ref) w1 = (out, w') ->
      result = (resolved out, w') in
  run (StoragePoolsClient_.CreateStoragePool env fuel self storagepool_ref true config) w
    = (Ok (Accepted create_op), sent w create_call)
  /\ run (StoragePoolsClient_.DeleteStoragePool env fuel self storagepool_ref true) w
     = (Ok (Accepted delete_op), sent w delete_call)
  /\ run (StoragePoolsClient_.UpdateStoragePool env fuel self storagepool_ref config
            update_mask true) w
     = (Ok (Accepted update_op), sent w update_call)
  /\ waits create_op (sent w create_call)
       (run (StoragePoolsClient_.CreateStoragePool env fuel self storagepool_ref false
               config) w)
  /\ waits delete_op (sent w delete_call)
       (run (StoragePoolsClient_.DeleteStoragePool env fuel self storagepool_ref false) w)
  /\ waits update_op (sent w update_call)
       (run (StoragePoolsClient_.UpdateStoragePool env fuel self storagepool_ref config
               update_mask false) w).
Proof.
  intros Hm svc create_call create_op delete_call delete_op update_call update_op waits.
  unfold StoragePoolsClient_.CreateStoragePool, StoragePoolsClient_.DeleteStoragePool,
    StoragePoolsClient_._DeleteStoragePool, StoragePoolsClient_.UpdateStoragePool,
    AlphaStoragePoolsAdapter_.UpdateStoragePool.
  split_and!.
  - by rewrite run_bind, (run_Create _ _ m).
  - by rewrite run_bind, run_Delete.
  - by rewrite !run_bind, (run_Patch _ _ m).
  - intros operation_ref out w' Hparse Hwait.
    rewrite run_bind, (run_Create _ _ m) by done.
    by apply (run_parse_then_wait _ _ _ _ operation_ref).
  - intros operation_ref out w' Hparse Hwait.
    rewrite run_bind, run_Delete.
    by apply (run_parse_then_wait _ _ _ _ operation_ref).
  - intros operation_ref out w' Hparse Hwait.
    rewrite !run_bind, (run_Patch _ _ m), run_ret by done.
    by apply (run_parse_then_wait _ _ _ _ operation_ref).
Qed.

(** C8, on the sample service, whose operations resolve after three polls. *)
Lemma mutating_calls_return_operation_or_wait_witness :
  let create_call := CallCreate "projects/p/locations/l" "pool-a" Sample.existing_pool in
  let delete_call := CallDelete "projects/p/locations/l/storagePools/pool-a" in
  let update_call :=
    CallPatch "projects/p/locations/l/storagePools/pool-a" "description"
      Sample.existing_pool in
  run (StoragePoolsClient_.CreateStoragePool Sample.env 3 Sample.self Sample.pool_ref
         true 0) Sample.world1
    = (Ok (Accepted (mkOperation "op/slow")), sent Sample.world1 create_call)
  /\ run (StoragePoolsClient_.DeleteStoragePool Sample.env 3 Sample.self Sample.pool_ref
            true) Sample.world1
     = (Ok (Accepted (mkOperation "op/slow")), sent Sample.world1 delete_call)
  /\ run (StoragePoolsClient_.UpdateStoragePool Sample.env 3 Sample.self Sample.pool_ref
            0 "description" true) Sample.world1
     = (Ok (Accepted (mkOperation "op/slow")), sent Sample.world1 update_call)
  /\ run (StoragePoolsClient_.CreateStoragePool Sample.env 3 Sample.self Sample.pool_ref
            false 0) Sample.world1
     = (Ok (Resolved Sample.existing_pool), Sample.after_wait create_call)
  /\ run (StoragePoolsClient_.DeleteStoragePool Sample.env 3 Sample.self Sample.pool_ref
            false) Sample.world1
     = (Ok (Resolved Sample.existing_pool), Sample.after_wait delete_call)
  /\ run (StoragePoolsClient_.UpdateStoragePool Sample.env 3 Sample.self Sample.pool_ref
            0 "description" false) Sample.world1
     = (Ok (Resolved Sample.existing_pool), Sample.after_wait update_call).
Proof.
  intros create_call delete_call update_call.
  destruct (mutating_calls_return_operation_or_wait Sample.env 3 Sample.self
              Sample.pool_ref 0 "description" Sample.existing_pool Sample.world1 eq_refl)
    as (Hc & Hd & Hu & Hcw & Hdw & Huw).
  split_and!; [exact Hc | exact Hd | exact Hu | | | ].
  - apply (Hcw (Sample.op_ref "op/slow") (Ok Sample.existing_pool)
             (Sample.after_wait create_call)); [reflexivity | vm_compute; reflexivity].
  - apply (Hdw (Sample.op_ref "op/slow") (Ok Sample.existing_pool)
             (Sample.after_wait delete_call)); [reflexivity | vm_compute; reflexivity].
  - apply (Huw (Sample.op_ref "op/slow") (Ok Sample.existing_pool)
             (Sample.after_wait update_call)); [reflexivity | vm_compute; reflexivity].
Defined.

(** ** Updating with a description only *)

(** The update the claims speak of: the builder is given a description and
    nothing else, and the message it returns is sent. *)
Lemma update_description_run env fuel self storagepool_ref cfg d update_mask async_ m w :
  heap w !! cfg = Some m ->
  let body := <["description" := d]> m in
  let patch := CallPatch (RelativeName storagepool_ref) update_mask body in
  exists out w' rest,
    run (StoragePoolsClient_.ParseUpdatedStoragePoolConfig self cfg None (Some d) None
         ≫= λ config,
              StoragePoolsClient_.UpdateStoragePool env fuel self storagepool_ref config
                update_mask async_) w
    = (out, w')
    /\ calls w' = (calls w ++ patch :: rest)%list
    /\ Forall is_poll rest
    /\ (async_ = true -> rest = []).
Proof.
  intros Hm body patch.
  rewrite run_bind. unfold StoragePoolsClient_.ParseUpdatedStoragePoolConfig.
  rewrite run_bind, (adapter_ParseUpdatedStoragePoolConfig_run _ _ _ _ _ m), run_ret by done.
  cbn [assign_if_given setattr]. fold body.
  set (w1 := mkWorld (<[cfg := body]> (heap w)) (calls w) (warnings w) (clock w)).
  assert (heap w1 !! cfg = Some body) as Hbody
    by (apply list_lookup_insert_eq; by eapply lookup_lt_Some).
  unfold StoragePoolsClient_.UpdateStoragePool, AlphaStoragePoolsAdapter_.UpdateStoragePool.
  rewrite !run_bind, (run_Patch _ _ body), run_ret by done.
  cbn [pr_name pr_updateMask]. fold patch.
  destruct async_.
  - rewrite run_ret. eexists _, _, []. split_and!; [done | done | constructor | done].
  - unfold REGISTRY_ParseRelativeName.
    destruct (ParseRelativeName env _ _) as [operation_ref|].
    + rewrite run_bind, run_ret, run_fmap.
      destruct (run (StoragePoolsClient_.WaitForOperation env fuel self operation_ref)
                  (sent w1 patch)) as [out w'] eqn:Hwait.
      apply PollUntilDone_effects in Hwait as (_ & _ & n & Hcalls).
      exists (resolved out), w', (replicate n (CallOperationsGet (RelativeName operation_ref))).
      split_and!.
      * by destruct out.
      * rewrite Hcalls. simpl. by rewrite <- app_assoc.
      * apply Forall_replicate. exact I.
      * done.
    + rewrite run_bind, run_raise.
      eexists _, _, []. split_and!; [done | done | constructor | done].
Qed.

(** C1, as the code has it: an update that gives only a description sends
    one Patch request whose message has description equal to the given
    value and every other field, capacityGib and labels among them, exactly
    as the input message had it (unset only where the input had it unset);
    the updateMask of the request is the update_mask argument, unchanged.
    The request is followed by polls only, and by nothing when async is
    set.  When the input message has neither capacity nor labels and the
    caller passes the mask "description", the request is the one the claim
    describes. *)
Theorem update_description_only_request
    (env : Imports) (fuel : nat) (self : StoragePoolsClient) (storagepool_ref : ResourceRef)
    (cfg : nat) (d : Value) (update_mask : string) (async_ : bool) (m : Message)
    (w : World) :
  heap w !! cfg = Some m ->
  exists out w' body rest,
    run (StoragePoolsClient_.ParseUpdatedStoragePoolConfig self cfg None (Some d) None
         ≫= λ config,
              StoragePoolsClient_.UpdateStoragePool env fuel self storagepool_ref config
                update_mask async_) w
    = (out, w')
    /\ calls w' = (calls w ++ CallPatch (RelativeName storagepool_ref) update_mask body
                     :: rest)%list
    /\ Forall is_poll rest
    /\ (async_ = true -> rest = [])
    /\ body !! "description" = Some d
    /\ body !! "capacityGib" = m !! "capacityGib"
    /\ body !! "labels" = m !! "labels"
    /\ (forall field, field <> "description" -> body !! field = m !! field)
    /\ (m !! "capacityGib" = None -> m !! "labels" = None ->
        update_mask = "description" ->
        description_only_request
          (CallPatch (RelativeName storagepool_ref) update_mask body)).
Proof.
  intros Hm.
  destruct (update_description_run env fuel self storagepool_ref cfg d update_mask
              async_ m w Hm) as (out & w' & rest & Hrun & Hcalls & Hpolls & Hasync).
  exists out, w', (<["description" := d]> m), rest.
  split_and!; [done | done | done | done | | | | | ].
  - by simplify_map_eq.
  - by simplify_map_eq.
  - by simplify_map_eq.
  - intros field Hne. by simplify_map_eq.
  - intros Hc Hl Hmask. simpl. split_and!; by simplify_map_eq.
Qed.

(** C1, on the sample world: the pool fetched from the server gets a new
    description and is sent asynchronously. *)
Lemma update_description_only_request_witness :
  exists out w' body rest,
    run (StoragePoolsClient_.ParseUpdatedStoragePoolConfig Sample.self 0 None
           (Some (VStr "new")) None
         ≫= λ config,
              StoragePoolsClient_.UpdateStoragePool Sample.env 3 Sample.self
                Sample.pool_ref config "description" true) Sample.world1
    = (out, w')
    /\ calls w' = (calls Sample.world1
                   ++ CallPatch (RelativeName Sample.pool_ref) "description" body :: rest)%list
    /\ Forall is_poll rest
    /\ (true = true -> rest = [])
    /\ body !! "description" = Some (VStr "new")
    /\ body !! "capacityGib" = Sample.existing_pool !! "capacityGib"
    /\ body !! "labels" = Sample.existing_pool !! "labels"
    /\ (forall field, field <> "description" -> body !! field = Sample.existing_pool !! field)
    /\ (Sample.existing_pool !! "capacityGib" = None ->
        Sample.existing_pool !! "labels" = None ->
        "description" = "description" ->
        description_only_request
          (CallPatch (RelativeName Sample.pool_ref) "description" body)).
Proof.
  apply (update_description_only_request Sample.env 3 Sample.self Sample.pool_ref 0
           (VStr "new") "description" true Sample.existing_pool Sample.world1).
  reflexivity.
Defined.

(** C1 as stated fails: the pool fetched from the server has its capacity
    set, the update gives only a description, and the request that is sent
    still carries the capacity. *)
Lemma update_description_only_counterexample :
  exists c,
    calls (run (StoragePoolsClient_.ParseUpdatedStoragePoolConfig Sample.self 0 None
                  (Some (VStr "new")) None
                ≫= λ config,
                     StoragePoolsClient_.UpdateStoragePool Sample.env 3 Sample.self
                       Sample.pool_ref config "description" true) Sample.world1).2
    = [c]
    /\ ~ description_only_request c.
Proof.
  eexists. split; [vm_compute; reflexivity|].
  intros (_ & Hcap & _). vm_compute in Hcap. discriminate.
Qed.

(** ** Listing *)

Lemma prepend_nil r : prepend [] r = r.
Proof. by destruct r as [[] ?]. Qed.

Lemma prepend_prepend xs ys r : prepend xs (prepend ys r) = prepend (xs ++ ys) r.
Proof. destruct r as [[] ?]; simpl; by rewrite ?app_assoc. Qed.

Lemma list_requests_app cs1 cs2 :
  list_requests (cs1 ++ cs2) = list_requests cs1 + list_requests cs2.
Proof.
  induction cs1 as [|c cs1 IH]; [done|].
  destruct c; simpl; rewrite ?IH; lia.
Qed.

Lemma list_requests_map_CallList reqs : list_requests (map CallList reqs) = length reqs.
Proof. induction reqs; simpl; congruence. Qed.

Lemma run_log_warning msg w :
  run (log_warning msg) w
  = (Ok tt, mkWorld (heap w) (calls w) (warnings w ++ [msg]) (clock w)).
Proof. reflexivity. Qed.

Lemma run_for_each_warning (f : string -> string) locations w :
  run (for_each locations (fun location => log_warning (f location))) w
  = (Ok tt, mkWorld (heap w) (calls w) (warnings w ++ map f locations) (clock w)).
Proof.
  revert w. induction locations as [|l ls IH]; intros w; simpl.
  - by rewrite run_ret, app_nil_r, world_eta.
  - rewrite run_bind, run_log_warning, IH. simpl. by rewrite <- app_assoc.
Qed.

(** A finished generator stops at once. *)
Lemma list_finished fuel svc request field limit batch_size items token w :
  run (list_ (S fuel)
         (list_pager.mkPager svc request field limit batch_size items token
            list_pager.Finished)) w
  = (Ok [], w).
Proof. reflexivity. Qed.

(** At the loop head, with results still wanted, one page is requested. *)
Lemma list_at_head fuel svc parent token size field limit batch_size w :
  limit <> Some 0 ->
  let request :=
    mkListRequest parent token (Some (list_pager.request_batch_size batch_size limit)) in
  run (list_ (S fuel) (pager_at_head svc parent token size field limit batch_size)) w
  = run (list_ fuel
           (pager_in_page svc request field limit batch_size
              (repeated (sp_List svc request) field)
              (nextPageToken (sp_List svc request))))
        (sent w (CallList request)).
Proof.
  intros Hlimit request.
  destruct limit as [[|n]|]; [done| |]; reflexivity.
Qed.

(** At the end of a page the token decides. *)
Lemma list_page_end fuel svc request field limit batch_size token w :
  run (list_ (S fuel) (pager_in_page svc request field limit batch_size [] token)) w
  = if list_pager.no_token token then (Ok [], w)
    else run (list_ fuel
                (pager_at_head svc (lr_parent request) token (lr_pageSize request)
                   field limit batch_size)) w.
Proof.
  cbn [list_]. rewrite run_bind.
  unfold list_pager.step, pager_in_page; cbn [list_pager.pg_phase list_pager.pg_items
    list_pager.pg_token].
  destruct (list_pager.no_token token); reflexivity.
Qed.

(** Inside a page the next item is yielded and counted against the limit. *)
Lemma list_yield fuel svc request field limit batch_size x xs token w :
  run (list_ (S fuel) (pager_in_page svc request field limit batch_size (x :: xs) token)) w
  = prepend [x]
      (run (list_ fuel
              (list_pager.mkPager svc request field (Nat.pred <$> limit) batch_size xs
                 token
                 (match Nat.pred <$> limit with
                  | Some O => list_pager.Finished
                  | _ => list_pager.InPage
                  end))) w).
Proof.
  cbn [list_]. rewrite run_bind.
  change (run (list_pager.step _) w) with
    (Ok (list_pager.Yield x
           (list_pager.mkPager svc request field (Nat.pred <$> limit) batch_size xs
              token
              (match Nat.pred <$> limit with
               | Some O => list_pager.Finished
               | _ => list_pager.InPage
               end))), w).
  cbv beta iota. rewrite run_fmap. unfold prepend.
  by destruct (run (list_ _ _) w) as [[] ?].
Qed.

(** Inside a page the items are yielded in order until the limit is used up
    or the page ends. *)
Lemma list_in_page svc request field batch_size token :
  forall items limit fuel w,
    limit <> Some 0 ->
    1 <= fuel ->
    run (list_ (length items + fuel)
           (pager_in_page svc request field limit batch_size items token)) w
    = match limit with
      | Some n =>
          if decide (n <= length items) then (Ok (take n items), w)
          else prepend items
                 (run (list_ fuel
                         (pager_in_page svc request field (Some (n - length items))
                            batch_size [] token)) w)
      | None =>
          prepend items
            (run (list_ fuel (pager_in_page svc request field None batch_size [] token)) w)
      end.
Proof.
  induction items as [|x xs IH]; intros limit fuel w Hlimit Hfuel.
  - destruct limit as [n|]; simpl.
    + rewrite decide_False by (assert (n <> 0) by congruence; lia).
      by rewrite Nat.sub_0_r, prepend_nil.
    + by rewrite prepend_nil.
  - change (length (x :: xs) + fuel) with (S (length xs + fuel)).
    destruct limit as [[|[|n]]|].
    + done.
    + (* the limit is reached with this item *)
      destruct fuel as [|fuel]; [lia|].
      rewrite Nat.add_succ_r. reflexivity.
    + specialize (IH (Some (S n)) fuel w ltac:(done) Hfuel).
      rewrite list_yield. cbn [fmap option_fmap option_map Nat.pred].
      fold (pager_in_page svc request field (Some (S n)) batch_size xs token).
      rewrite IH. cbn [length].
      destruct (decide (S n <= length xs)).
      * rewrite decide_True by lia. done.
      * rewrite decide_False by lia. rewrite prepend_prepend. done.
    + specialize (IH None fuel w ltac:(done) Hfuel).
      rewrite list_yield. cbn [fmap option_fmap option_map Nat.pred].
      fold (pager_in_page svc request field None batch_size xs token).
      rewrite IH. by rewrite prepend_prepend.
Qed.

Lemma pages_needed_zero field pages : pages_needed field 0 pages = 0.
Proof. by destruct pages. Qed.

Lemma pages_needed_cons field n page pages :
  n <> 0 ->
  pages_needed field n (page :: pages)
  = S (pages_needed field (n - length (repeated page field)) pages).
Proof. by destruct n. Qed.

Lemma pages_needed_nil field n : pages_needed field n [] = 0.
Proof. by destruct n. Qed.

(** [pages_needed] is least: fewer pages from the front hold fewer than
    [n] items. *)
Lemma pages_needed_least field :
  forall pages n k,
    k < pages_needed field n pages ->
    length (all_items field (take k pages)) < n.
Proof.
  induction pages as [|page pages IH]; intros n k Hk.
  - destruct n; simpl in Hk; lia.
  - destruct n as [|n]; [simpl in Hk; lia|].
    rewrite pages_needed_cons in Hk by done.
    destruct k as [|k]; [simpl; lia|].
    unfold all_items in *. cbn [take map concat]. rewrite length_app.
    specialize (IH (S n - length (repeated page field)) k ltac:(lia)). lia.
Qed.

(** Draining the pager from the head of its loop over a paginated source:
    the items come in order, cut at the limit; one request is sent per page
    fetched, and no page is fetched once the limit is reached. *)
Lemma list_from_head svc parent field batch_size token pages :
  paginated (sp_List svc) parent token pages ->
  forall limit size fuel w,
    limit <> Some 0 ->
    drain_fuel field pages <= fuel ->
    exists requests,
      run (list_ fuel (pager_at_head svc parent token size field limit batch_size)) w
      = (Ok (take_limit limit (all_items field pages)),
         mkWorld (heap w) (calls w ++ map CallList requests) (warnings w) (clock w))
      /\ length requests = pages_fetched field limit pages.
Proof.
  induction 1 as [token page Hpage Hlast | token page pages Hpage Hmore Hrest IH];
    intros limit size fuel w Hlimit Hfuel; cbn [drain_fuel] in Hfuel.
  - (* the last page *)
    replace fuel with
      (S (length (repeated page field) + S (fuel - 2 - length (repeated page field))))
      by lia.
    rewrite list_at_head by done. cbv zeta. rewrite !Hpage.
    rewrite list_in_page by (done || lia).
    eexists [_]. unfold all_items. cbn [map concat]. rewrite app_nil_r.
    destruct limit as [n|]; cbn [take_limit pages_fetched].
    + rewrite pages_needed_cons by congruence.
      rewrite pages_needed_nil. split; [|done].
      case_decide; [done|].
      rewrite list_page_end, Hlast. cbn [prepend].
      by rewrite app_nil_r, take_ge by lia.
    + split; [|done].
      rewrite list_page_end, Hlast. cbn [prepend]. by rewrite app_nil_r.
  - (* a page with a successor *)
    replace fuel with
      (S (length (repeated page field) + S (fuel - 2 - length (repeated page field))))
      by lia.
    rewrite list_at_head by done. cbv zeta. rewrite !Hpage.
    rewrite list_in_page by (done || lia).
    unfold all_items. cbn [map concat]. fold (all_items field pages).
    destruct limit as [n|]; cbn [take_limit pages_fetched].
    + rewrite pages_needed_cons by congruence.
      case_decide as Hn.
      * eexists [_]. rewrite take_app_le by done.
        replace (n - length (repeated page field)) with 0 by lia.
        by rewrite pages_needed_zero.
      * rewrite list_page_end, Hmore. cbn [lr_parent lr_pageSize].
        match goal with
        | |- context [run (list_ ?f (pager_at_head _ _ _ ?sz _ ?l _)) ?w1] =>
            destruct (IH l sz f w1) as (requests & Hrun & Hlen);
              [intros [=]; lia | lia | rewrite Hrun]
        end.
        eexists (_ :: requests). cbn [prepend]. split.
        -- rewrite take_app_ge by lia. cbn [sent calls heap warnings clock map].
           by rewrite <- app_assoc.
        -- cbn [pages_fetched] in Hlen. cbn [length]. by rewrite Hlen.
    + rewrite list_page_end, Hmore. cbn [lr_parent lr_pageSize].
      match goal with
      | |- context [run (list_ ?f (pager_at_head _ _ _ ?sz _ ?l _)) ?w1] =>
          destruct (IH l sz f w1) as (requests & Hrun & Hlen);
            [done | lia | rewrite Hrun]
      end.
      eexists (_ :: requests). cbn [prepend]. split.
      * cbn [sent calls heap warnings clock map]. by rewrite <- app_assoc.
      * cbn [pages_fetched] in Hlen. cbn [length]. by rewrite Hlen.
Qed.

(** With a limit of zero the pager stops before any request. *)
Lemma list_from_head_zero svc parent token size field batch_size fuel w :
  1 <= fuel ->
  run (list_ fuel (pager_at_head svc parent token size field (Some 0) batch_size)) w
  = (Ok [], w).
Proof. intros Hfuel. destruct fuel; [lia|done]. Qed.

Lemma paginated_nonempty handler parent token pages :
  paginated handler parent token pages -> exists page rest, pages = page :: rest.
Proof. destruct 1; eauto. Qed.

Lemma paginated_first handler parent token page rest size :
  paginated handler parent token (page :: rest) ->
  handler (mkListRequest parent token size) = page.
Proof. inversion 1; subst; auto. Qed.

Lemma drain_fuel_pos handler parent token field pages :
  paginated handler parent token pages -> 2 <= drain_fuel field pages.
Proof. destruct 1; simpl; lia. Qed.

Lemma run_List_ svc request w :
  run (List_ svc request) w = (Ok (sp_List svc request), sent w (CallList request)).
Proof. reflexivity. Qed.

(** The call itself: one request for the first page, a warning for each
    unreachable location of that page, and a pager that has not started. *)
Lemma run_ListStoragePools env self location_ref limit pages w :
  let svc := projects_locations_storagePools (StoragePoolsClient_.client self) in
  paginated (sp_List svc) location_ref None pages ->
  run (StoragePoolsClient_.ListStoragePools env self location_ref limit) w
  = (Ok (pager_at_head svc location_ref None None (STORAGE_POOL_RESOURCE env) limit
           (default_batch_size env)),
     mkWorld (heap w) (calls w ++ [CallList (mkListRequest location_ref None None)])
             (warnings w ++ map unreachable_warning (first_unreachable pages))
             (clock w)).
Proof.
  intros svc Hpages.
  destruct (paginated_nonempty _ _ _ _ Hpages) as (page & rest & ->).
  unfold StoragePoolsClient_.ListStoragePools. fold svc.
  rewrite run_bind, run_List_, (paginated_first _ _ _ _ _ None Hpages).
  rewrite run_bind, (run_for_each_warning unreachable_warning).
  by rewrite run_ret.
Qed.

(** C2, as the code has it: with limit 2 over a paginated source of five
    items, the call sends one request of its own, for the unreachable
    locations; consuming the result yields the first two items and sends
    one request per page needed to reach two items, so that the number of
    List requests is one more than necessary. *)
Theorem ListStoragePools_limit_two
    (env : Imports) (self : StoragePoolsClient) (location_ref : string)
    (pages : list ListResponse) (fuel : nat) (w : World) :
  let svc := projects_locations_storagePools (StoragePoolsClient_.client self) in
  let field := STORAGE_POOL_RESOURCE env in
  paginated (sp_List svc) location_ref None pages ->
  length (all_items field pages) = 5 ->
  drain_fuel field pages <= fuel ->
  exists g w1 w',
    run (StoragePoolsClient_.ListStoragePools env self location_ref (Some 2)) w = (Ok g, w1)
    /\ calls w1 = (calls w ++ [CallList (mkListRequest location_ref None None)])%list
    /\ run (list_ fuel g) w1 = (Ok (take 2 (all_items field pages)), w')
    /\ length (take 2 (all_items field pages)) = 2
    /\ list_requests (calls w') = list_requests (calls w) + 1 + pages_needed field 2 pages.
Proof.
  intros svc field Hpages Hfive Hfuel.
  pose proof (run_ListStoragePools env self location_ref (Some 2) pages w Hpages) as Hcall.
  cbv zeta in Hcall. fold svc field in Hcall.
  match type of Hcall with _ = (Ok ?g0, ?w0) => set (w1 := w0) in *; set (g := g0) in * end.
  destruct (list_from_head svc location_ref field (default_batch_size env) None pages
              Hpages (Some 2) None fuel w1 ltac:(done) Hfuel)
    as (requests & Hrun & Hlen).
  eexists g, w1, _. split_and!; [exact Hcall | done | exact Hrun | |].
  - rewrite length_take. lia.
  - cbn [calls w1 pages_fetched] in *.
    rewrite !list_requests_app, list_requests_map_CallList, Hlen. simpl. lia.
Qed.

(** C3, as the code has it: over a paginated source, with any limit, the
    call emits one warning for each unreachable location of the first page,
    in order, and no other; consuming the result yields all items (up to the
    limit) and nothing fails.  Unreachable locations of later pages leave no
    trace. *)
Theorem ListStoragePools_warns_first_page
    (env : Imports) (self : StoragePoolsClient) (location_ref : string)
    (limit : option nat) (pages : list ListResponse) (fuel : nat) (w : World) :
  let svc := projects_locations_storagePools (StoragePoolsClient_.client self) in
  let field := STORAGE_POOL_RESOURCE env in
  paginated (sp_List svc) location_ref None pages ->
  drain_fuel field pages <= fuel ->
  exists g w1 w',
    run (StoragePoolsClient_.ListStoragePools env self location_ref limit) w = (Ok g, w1)
    /\ warnings w1
       = (warnings w ++ map unreachable_warning (first_unreachable pages))%list
    /\ run (list_ fuel g) w1 = (Ok (take_limit limit (all_items field pages)), w')
    /\ warnings w' = warnings w1.
Proof.
  intros svc field Hpages Hfuel.
  pose proof (run_ListStoragePools env self location_ref limit pages w Hpages) as Hcall.
  cbv zeta in Hcall. fold svc field in Hcall.
  match type of Hcall with _ = (Ok ?g0, ?w0) => set (w1 := w0) in *; set (g := g0) in * end.
  destruct (decide (limit = Some 0)) as [->|Hlimit].
  - exists g, w1, w1. split_and!; [exact Hcall | done | | done].
    apply list_from_head_zero.
    pose proof (drain_fuel_pos _ _ _ field _ Hpages). lia.
  - destruct (list_from_head svc location_ref field (default_batch_size env) None
                pages Hpages limit None fuel w1 Hlimit Hfuel)
      as (requests & Hrun & Hlen).
    eexists g, w1, _. split_and!; [exact Hcall | done | exact Hrun | done].
Qed.

(** The sample service is a paginated source of five pools on two pages. *)
Lemma sample_paginated :
  paginated (sp_List Sample.service) Sample.all_locations None [Sample.page1; Sample.page2].
Proof.
  apply paginated_next; [reflexivity | reflexivity |].
  apply paginated_last; reflexivity.
Qed.

(** C2, on the sample service. *)
Lemma ListStoragePools_limit_two_witness :
  exists g w1 w',
    run (StoragePoolsClient_.ListStoragePools Sample.env Sample.self Sample.all_locations
           (Some 2)) Sample.empty_world = (Ok g, w1)
    /\ calls w1 = [CallList (mkListRequest Sample.all_locations None None)]
    /\ run (list_ 9 g) w1 = (Ok [Sample.pool_a; Sample.pool_b], w')
    /\ length [Sample.pool_a; Sample.pool_b] = 2
    /\ list_requests (calls w') = 0 + 1 + 1.
Proof.
  apply (ListStoragePools_limit_two Sample.env Sample.self Sample.all_locations
           [Sample.page1; Sample.page2] 9 Sample.empty_world).
  - exact sample_paginated.
  - reflexivity.
  - vm_compute. lia.
Defined.

(** C2 as stated fails: the first page of the sample service already holds
    two items, so one page request satisfies the limit, and two are sent. *)
Lemma ListStoragePools_limit_two_counterexample :
  let r := run (StoragePoolsClient_.ListStoragePools Sample.env Sample.self
                  Sample.all_locations (Some 2) ≫= list_ 9) Sample.empty_world in
  r.1 = Ok [Sample.pool_a; Sample.pool_b]
  /\ length (all_items "storagePools" [Sample.page1; Sample.page2]) = 5
  /\ pages_needed "storagePools" 2 [Sample.page1; Sample.page2] = 1
  /\ list_requests (calls r.2) = 2
  /\ ~ list_requests (calls r.2) <= pages_needed "storagePools" 2 [Sample.page1; Sample.page2].
Proof.
  cbv zeta. split_and!; [vm_compute; reflexivity.. |].
  vm_compute. lia.
Qed.

(** C3, on the sample service, whose first page reports "us-east1"
    unreachable. *)
Lemma ListStoragePools_warns_first_page_witness :
  exists g w1 w',
    run (StoragePoolsClient_.ListStoragePools Sample.env Sample.self Sample.all_locations
           None) Sample.empty_world = (Ok g, w1)
    /\ warnings w1 = ["Location us-east1 may be unreachable."]
    /\ run (list_ 9 g) w1
       = (Ok [Sample.pool_a; Sample.pool_b; Sample.pool_c; Sample.pool_d; Sample.pool_e], w')
    /\ warnings w' = warnings w1.
Proof.
  apply (ListStoragePools_warns_first_page Sample.env Sample.self Sample.all_locations
           None [Sample.page1; Sample.page2] 9 Sample.empty_world).
  - exact sample_paginated.
  - vm_compute. lia.
Defined.

(** C3 as stated fails: the sample service reports two unreachable
    locations, "us-east1" on the first page and "us-west1" on the second;
    all five pools are listed, and only the first location is warned
    about. *)
Lemma ListStoragePools_unreachable_counterexample :
  let r := run (StoragePoolsClient_.ListStoragePools Sample.env Sample.self
                  Sample.all_locations None ≫= list_ 9) Sample.empty_world in
  r.1 = Ok [Sample.pool_a; Sample.pool_b; Sample.pool_c; Sample.pool_d; Sample.pool_e]
  /\ all_unreachable [Sample.page1; Sample.page2] = ["us-east1"; "us-west1"]
  /\ warnings r.2 = ["Location us-east1 may be unreachable."]
  /\ length (warnings r.2) <> length (all_unreachable [Sample.page1; Sample.page2]).
Proof.
  cbv zeta. split_and!; [vm_compute; reflexivity.. |].
  vm_compute. lia.
Qed.

(** * Further properties of the wrapper *)

(** ** The update builder, applied repeatedly *)

Lemma assign_if_given_spec m field v i :
  assign_if_given m field v !! i
  = if decide (i = field) then or_else v (m !! field) else m !! i.
Proof.
  destruct v; simpl; case_decide; simplify_map_eq; done.
Qed.

Lemma client_ParseUpdatedStoragePoolConfig_run self cfg capacity description labels m w :
  heap w !! cfg = Some m ->
  run (StoragePoolsClient_.ParseUpdatedStoragePoolConfig self cfg capacity description
         labels) w
  = (Ok cfg,
     mkWorld (<[cfg := updated m capacity description labels]> (heap w))
             (calls w) (warnings w) (clock w)).
Proof.
  intros Hm. unfold StoragePoolsClient_.ParseUpdatedStoragePoolConfig.
  rewrite run_bind, (adapter_ParseUpdatedStoragePoolConfig_run _ _ _ _ _ m) by done.
  apply run_ret.
Qed.

Lemma updated_updated m c1 d1 l1 c2 d2 l2 :
  updated (updated m c1 d1 l1) c2 d2 l2
  = updated m (or_else c2 c1) (or_else d2 d1) (or_else l2 l1).
Proof.
  apply map_eq. intros i. unfold updated.
  rewrite !assign_if_given_spec.
  repeat case_decide; subst; try done;
    destruct c1, c2, d1, d2, l1, l2; simpl; try done.
Qed.

(** X1: two updates of the same message in a row leave the world exactly
    as the single update whose arguments are, field by field, the later
    argument when it is given and the earlier one otherwise; in particular
    repeating an update changes nothing more. *)
Theorem ParseUpdatedStoragePoolConfig_composes
    (self : StoragePoolsClient) (cfg : nat) (c1 d1 l1 c2 d2 l2 : option Value)
    (m : Message) (w : World) :
  heap w !! cfg = Some m ->
  run (StoragePoolsClient_.ParseUpdatedStoragePoolConfig self cfg c1 d1 l1
       ≫= λ config, StoragePoolsClient_.ParseUpdatedStoragePoolConfig self config c2 d2 l2) w
  = run (StoragePoolsClient_.ParseUpdatedStoragePoolConfig self cfg
           (or_else c2 c1) (or_else d2 d1) (or_else l2 l1)) w
  /\ run (StoragePoolsClient_.ParseUpdatedStoragePoolConfig self cfg c1 d1 l1
          ≫= λ config,
               StoragePoolsClient_.ParseUpdatedStoragePoolConfig self config c1 d1 l1) w
     = run (StoragePoolsClient_.ParseUpdatedStoragePoolConfig self cfg c1 d1 l1) w.
Proof.
  intros Hm.
  assert (forall a b c a' b' c',
    run (StoragePoolsClient_.ParseUpdatedStoragePoolConfig self cfg a b c
         ≫= λ config,
              StoragePoolsClient_.ParseUpdatedStoragePoolConfig self config a' b' c') w
    = run (StoragePoolsClient_.ParseUpdatedStoragePoolConfig self cfg
             (or_else a' a) (or_else b' b) (or_else c' c)) w) as Hboth.
  { intros a b c a' b' c'.
    rewrite run_bind, (client_ParseUpdatedStoragePoolConfig_run _ _ a b c m) by done.
    rewrite (client_ParseUpdatedStoragePoolConfig_run _ _ (or_else a' a) _ _ m) by done.
    rewrite (client_ParseUpdatedStoragePoolConfig_run _ _ _ _ _ (updated m a b c)).
    - cbn [heap calls warnings clock].
      by rewrite list_insert_insert_eq, updated_updated.
    - cbn [heap]. apply list_lookup_insert_eq. by eapply lookup_lt_Some. }
  split; [apply Hboth|].
  rewrite Hboth. by destruct c1, d1, l1.
Qed.

(** X1, on the sample world: a description, then a capacity. *)
Lemma ParseUpdatedStoragePoolConfig_composes_witness :
  run (StoragePoolsClient_.ParseUpdatedStoragePoolConfig Sample.self 0 None
         (Some (VStr "new")) None
       ≫= λ config,
            StoragePoolsClient_.ParseUpdatedStoragePoolConfig Sample.self config
              (Some (VInt 4096)) None None) Sample.world1
  = run (StoragePoolsClient_.ParseUpdatedStoragePoolConfig Sample.self 0
           (Some (VInt 4096)) (Some (VStr "new")) None) Sample.world1
  /\ run (StoragePoolsClient_.ParseUpdatedStoragePoolConfig Sample.self 0 None
            (Some (VStr "new")) None
          ≫= λ config,
               StoragePoolsClient_.ParseUpdatedStoragePoolConfig Sample.self config None
                 (Some (VStr "new")) None) Sample.world1
     = run (StoragePoolsClient_.ParseUpdatedStoragePoolConfig Sample.self 0 None
              (Some (VStr "new")) None) Sample.world1.
Proof.
  apply (ParseUpdatedStoragePoolConfig_composes Sample.self 0 None (Some (VStr "new")) None
           (Some (VInt 4096)) None None Sample.existing_pool Sample.world1).
  reflexivity.
Defined.

(** X2: the update builder cannot clear a field: every field the message
    had set is still set afterwards, whatever the arguments; and when no
    argument is given the whole world is left as it was. *)
Theorem ParseUpdatedStoragePoolConfig_never_clears
    (self : StoragePoolsClient) (cfg : nat) (capacity description labels : option Value)
    (m : Message) (w : World) :
  heap w !! cfg = Some m ->
  exists m' : Message,
    run (StoragePoolsClient_.ParseUpdatedStoragePoolConfig self cfg capacity description
           labels) w
    = (Ok cfg, mkWorld (<[cfg := m']> (heap w)) (calls w) (warnings w) (clock w))
    /\ (forall field, is_Some (m !! field) -> is_Some (m' !! field))
    /\ run (StoragePoolsClient_.ParseUpdatedStoragePoolConfig self cfg None None None) w
       = (Ok cfg, w).
Proof.
  intros Hm. exists (updated m capacity description labels). split_and!.
  - by apply client_ParseUpdatedStoragePoolConfig_run.
  - intros field Hset. unfold updated. rewrite !assign_if_given_spec.
    repeat case_decide; subst; try done;
      destruct capacity, description, labels; simpl; eauto.
  - rewrite (client_ParseUpdatedStoragePoolConfig_run _ _ _ _ _ m) by done.
    unfold updated. cbn [assign_if_given].
    by rewrite list_insert_id, world_eta.
Qed.

(** X2, on the sample world. *)
Lemma ParseUpdatedStoragePoolConfig_never_clears_witness :
  exists m' : Message,
    run (StoragePoolsClient_.ParseUpdatedStoragePoolConfig Sample.self 0 None None
           (Some (VLabels [("team", "storage")]))) Sample.world1
    = (Ok 0, mkWorld (<[0 := m']> (heap Sample.world1)) (calls Sample.world1)
                (warnings Sample.world1) (clock Sample.world1))
    /\ (forall field, is_Some (Sample.existing_pool !! field) -> is_Some (m' !! field))
    /\ run (StoragePoolsClient_.ParseUpdatedStoragePoolConfig Sample.self 0 None None None)
         Sample.world1
       = (Ok 0, Sample.world1).
Proof.
  apply (ParseUpdatedStoragePoolConfig_never_clears Sample.self 0 None None
           (Some (VLabels [("team", "storage")])) Sample.existing_pool Sample.world1).
  reflexivity.
Defined.

(** ** The create builder and the request it feeds *)

Lemma run_ParseStoragePoolConfig self name service_level capacity description labels w :
  run (StoragePoolsClient_.ParseStoragePoolConfig self name service_level capacity
         description labels) w
  = (Ok (length (heap w)),
     mkWorld (heap w ++ [new_pool name service_level capacity description labels])
             (calls w) (warnings w) (clock w)).
Proof.
  unfold StoragePoolsClient_.ParseStoragePoolConfig.
  rewrite run_bind, run_new_message.
  repeat (rewrite run_bind, run_assign_last).
  by rewrite run_ret.
Qed.

Lemma new_pool_fields name service_level capacity description labels :
  let m := new_pool name service_level capacity description labels in
  m !! "name" = name /\ m !! "serviceLevel" = service_level /\
  m !! "capacityGib" = capacity /\ m !! "description" = description /\
  m !! "labels" = labels /\
  (forall field, field ∉ create_fields -> m !! field = None).
Proof.
  unfold new_pool, create_fields.
  destruct name, service_level, capacity, description, labels; simpl;
    split_and!; try (by simplify_map_eq);
    intros field Hf; repeat (apply not_elem_of_cons in Hf as [? Hf]);
    by simplify_map_eq.
Qed.

(** X3: two calls of ParseStoragePoolConfig return two different objects;
    each holds its own arguments, the second call leaves the first object
    as it was built, and every object that existed before is untouched. *)
Theorem ParseStoragePoolConfig_objects_independent
    (self : StoragePoolsClient) (n1 s1 c1 d1 l1 n2 s2 c2 d2 l2 : option Value) (w : World) :
  exists a b w',
    run (first ← StoragePoolsClient_.ParseStoragePoolConfig self n1 s1 c1 d1 l1;
         second ← StoragePoolsClient_.ParseStoragePoolConfig self n2 s2 c2 d2 l2;
         mret (first, second)) w
    = (Ok (a, b), w')
    /\ a <> b
    /\ heap w' !! a = Some (new_pool n1 s1 c1 d1 l1)
    /\ heap w' !! b = Some (new_pool n2 s2 c2 d2 l2)
    /\ (forall l m, heap w !! l = Some m -> heap w' !! l = Some m)
    /\ length (heap w') = length (heap w) + 2.
Proof.
  eexists _, _, _. split.
  { rewrite run_bind, run_ParseStoragePoolConfig.
    rewrite run_bind, run_ParseStoragePoolConfig. cbn [heap calls warnings clock].
    by rewrite run_ret. }
  cbn [heap]. rewrite length_app. cbn [length].
  split_and!.
  - lia.
  - rewrite lookup_app_l by (rewrite length_app; simpl; lia).
    by rewrite list_lookup_middle.
  - rewrite <- app_assoc. cbn [app].
    rewrite lookup_app_r by lia.
    by replace (length (heap w) + 1 - length (heap w)) with 1 by lia.
  - intros l m Hl. rewrite <- app_assoc.
    rewrite lookup_app_l by (by eapply lookup_lt_Some). done.
  - rewrite !length_app. simpl. lia.
Qed.

(** X4: a pool built by ParseStoragePoolConfig and handed to
    CreateStoragePool with async set goes out in a single Create request
    for the parent and id of the reference, whose body carries exactly the
    five arguments and no other field; the call returns the operation the
    service accepted, and no message object is needed beforehand. *)
Theorem create_sends_the_built_pool
    (env : Imports) (fuel : nat) (self : StoragePoolsClient) (storagepool_ref : ResourceRef)
    (name service_level capacity description labels : option Value) (w : World) :
  let svc := projects_locations_storagePools (StoragePoolsClient_.client self) in
  let parent := ParentRelativeName storagepool_ref in
  let id := Name storagepool_ref in
  exists body : Message,
    run (config ← StoragePoolsClient_.ParseStoragePoolConfig self name service_level
                    capacity description labels;
         StoragePoolsClient_.CreateStoragePool env fuel self storagepool_ref true config) w
    = (Ok (Accepted (sp_Create svc parent id body)),
       mkWorld (heap w ++ [body]) (calls w ++ [CallCreate parent id body])
               (warnings w) (clock w))
    /\ body !! "name" = name
    /\ body !! "serviceLevel" = service_level
    /\ body !! "capacityGib" = capacity
    /\ body !! "description" = description
    /\ body !! "labels" = labels
    /\ (forall field, field ∉ create_fields -> body !! field = None).
Proof.
  intros svc parent id.
  exists (new_pool name service_level capacity description labels).
  split; [|apply new_pool_fields].
  rewrite run_bind, run_ParseStoragePoolConfig.
  unfold StoragePoolsClient_.CreateStoragePool.
  rewrite run_bind,
    (run_Create _ _ (new_pool name service_level capacity description labels)).
  - by rewrite run_ret.
  - cbn [cr_storagePool heap]. by rewrite list_lookup_middle.
Qed.

(** ** An operation name the registry does not resolve *)

(** X5: when the registry cannot resolve the name of the accepted
    operation, a synchronous create, delete or update raises the
    registry's error after its request has gone out: the request stays
    sent, nothing is polled and nothing else changes. *)
Theorem mutating_calls_unresolved_operation
    (env : Imports) (fuel : nat) (self : StoragePoolsClient) (storagepool_ref : ResourceRef)
    (config : nat) (update_mask : string) (m : Message) (w : World) :
  let svc := projects_locations_storagePools (StoragePoolsClient_.client self) in
  let create_op := sp_Create svc (ParentRelativeName storagepool_ref) (Name storagepool_ref) m in
  let delete_op := sp_Delete svc (RelativeName storagepool_ref) in
  let update_op := sp_Patch svc (RelativeName storagepool_ref) update_mask m in
  let collection := OPERATIONS_COLLECTION env in
  heap w !! config = Some m ->
  ParseRelativeName env (op_name create_op) collection = None ->
  ParseRelativeName env (op_name delete_op) collection = None ->
  ParseRelativeName env (op_name update_op) collection = None ->
  run (StoragePoolsClient_.CreateStoragePool env fuel self storagepool_ref false config) w
    = (Raise (InvalidResource (op_name create_op) collection),
       sent w (CallCreate (ParentRelativeName storagepool_ref) (Name storagepool_ref) m))
  /\ run (StoragePoolsClient_.DeleteStoragePool env fuel self storagepool_ref false) w
     = (Raise (InvalidResource (op_name delete_op) collection),
        sent w (CallDelete (RelativeName storagepool_ref)))
  /\ run (StoragePoolsClient_.UpdateStoragePool env fuel self storagepool_ref config
            update_mask false) w
     = (Raise (InvalidResource (op_name update_op) collection),
        sent w (CallPatch (RelativeName storagepool_ref) update_mask m)).
Proof.
  intros svc create_op delete_op update_op collection Hm Hc Hd Hu.
  subst svc create_op delete_op update_op collection.
  unfold StoragePoolsClient_.client in *.
  unfold StoragePoolsClient_.CreateStoragePool, StoragePoolsClient_.DeleteStoragePool,
    StoragePoolsClient_._DeleteStoragePool, StoragePoolsClient_.UpdateStoragePool,
    AlphaStoragePoolsAdapter_.UpdateStoragePool, REGISTRY_ParseRelativeName,
    StoragePoolsClient_.client.
  split_and!.
  - rewrite run_bind, (run_Create _ _ m) by done.
    cbn [cr_parent cr_storagePoolId]. rewrite Hc.
    by rewrite run_bind, run_raise.
  - rewrite run_bind, run_Delete.
    cbn [dr_name]. rewrite Hd.
    by rewrite run_bind, run_raise.
  - rewrite !run_bind, (run_Patch _ _ m), run_ret by done.
    cbn [pr_name pr_updateMask]. rewrite Hu.
    by rewrite run_bind, run_raise.
Qed.

(** X5, with the registry of the second sample environment. *)
Lemma mutating_calls_unresolved_operation_witness :
  run (StoragePoolsClient_.CreateStoragePool SampleRun.env_unresolved 3
         SampleRun.self_unresolved Sample.pool_ref false 0) Sample.world1
    = (Raise (InvalidResource "op/slow" "netapp.projects.locations.operations"),
       sent Sample.world1
         (CallCreate "projects/p/locations/l" "pool-a" Sample.existing_pool))
  /\ run (StoragePoolsClient_.DeleteStoragePool SampleRun.env_unresolved 3
            SampleRun.self_unresolved Sample.pool_ref false) Sample.world1
     = (Raise (InvalidResource "op/slow" "netapp.projects.locations.operations"),
        sent Sample.world1 (CallDelete "projects/p/locations/l/storagePools/pool-a"))
  /\ run (StoragePoolsClient_.UpdateStoragePool SampleRun.env_unresolved 3
            SampleRun.self_unresolved Sample.pool_ref 0 "description" false) Sample.world1
     = (Raise (InvalidResource "op/slow" "netapp.projects.locations.operations"),
        sent Sample.world1
          (CallPatch "projects/p/locations/l/storagePools/pool-a" "description"
             Sample.existing_pool)).
Proof.
  apply (mutating_calls_unresolved_operation SampleRun.env_unresolved 3
           SampleRun.self_unresolved Sample.pool_ref 0 "description" Sample.existing_pool
           Sample.world1); reflexivity.
Defined.

(** ** What calling ListStoragePools does by itself *)

(** X6: whatever the service answers and whatever the limit, zero
    included, calling ListStoragePools sends exactly one List request, for
    the given parent with no page token and no page size, and emits one
    warning, in order and with the text of the source, for each unreachable
    location of the answer; the pager it returns has not requested
    anything yet. *)
Theorem ListStoragePools_call_effects
    (env : Imports) (self : StoragePoolsClient) (location_ref : string)
    (limit : option nat) (w : World) :
  let svc := projects_locations_storagePools (StoragePoolsClient_.client self) in
  let request := mkListRequest location_ref None None in
  run (StoragePoolsClient_.ListStoragePools env self location_ref limit) w
  = (Ok (list_pager.YieldFromList svc request (STORAGE_POOL_RESOURCE env) limit
           (default_batch_size env)),
     mkWorld (heap w) (calls w ++ [CallList request])
       (warnings w
        ++ map (fun location => "Location " +:+ location +:+ " may be unreachable.")
             (unreachable (sp_List svc request)))
       (clock w)).
Proof.
  intros svc request. unfold StoragePoolsClient_.ListStoragePools. fold svc request.
  rewrite run_bind, run_List_.
  rewrite run_bind,
    (run_for_each_warning
       (fun location => "Location " +:+ location +:+ " may be unreachable.")).
  by rewrite run_ret.
Qed.

(** ** The list command: the parent it lists under *)

Lemma append_assoc (a b c : string) : (a +:+ b) +:+ c = a +:+ (b +:+ c).
Proof.
  induction a as [|x a IH]; [done|].
  change (String x ((a +:+ b) +:+ c) = String x (a +:+ b +:+ c)). by f_equal.
Qed.

Lemma str_split_nonempty sep s : exists piece pieces, str_split sep s = piece :: pieces.
Proof.
  induction s as [|c s (piece & pieces & IH)]; simpl; [by eauto|].
  case_decide; [by eauto|]. rewrite IH. eauto.
Qed.

Lemma str_join_cons_char sep c piece pieces :
  str_join sep (String c piece :: pieces) = String c (str_join sep (piece :: pieces)).
Proof. by destruct pieces. Qed.

Lemma str_join_str_split sep s : str_join (String sep EmptyString) (str_split sep s) = s.
Proof.
  induction s as [|c s IH]; [done|]. cbn [str_split].
  destruct (str_split_nonempty sep s) as (piece & pieces & Hs). rewrite Hs in *.
  case_decide as Hc.
  - subst c. change (str_join (String sep EmptyString) (EmptyString :: piece :: pieces))
      with (String sep (str_join (String sep EmptyString) (piece :: pieces))).
    by rewrite IH.
  - by rewrite str_join_cons_char, IH.
Qed.

Lemma str_split_pieces sep s : Forall (fun piece => contains sep piece = false) (str_split sep s).
Proof.
  induction s as [|c s IH]; cbn [str_split]; [by repeat constructor|].
  case_decide as Hc; [by constructor|].
  destruct (str_split_nonempty sep s) as (piece & pieces & Hs). rewrite Hs in *.
  apply Forall_cons in IH as [Hpiece Hpieces]. constructor; [|done].
  simpl. by rewrite decide_False.
Qed.

Lemma str_split_single sep s : contains sep s = false -> str_split sep s = [s].
Proof.
  induction s as [|c s IH]; [done|]. simpl.
  case_decide; [done|]. intros Hs. by rewrite IH.
Qed.

Lemma str_split_app sep a b :
  str_split sep (a +:+ String sep b) = (str_split sep a ++ str_split sep b)%list.
Proof.
  induction a as [|c a IH]; simpl.
  - by rewrite decide_True.
  - case_decide; [by rewrite IH|]. rewrite IH.
    by destruct (str_split_nonempty sep a) as (piece & pieces & ->).
Qed.

Lemma setitem_last_snoc l y x : setitem_last (l ++ [y]) x = Some (l ++ [x])%list.
Proof.
  unfold setitem_last. destruct (l ++ [y])%list eqn:Hl; [by destruct l|].
  rewrite <- Hl, length_app. cbn [length].
  replace (length l + 1 - 1) with (length l + 0) by lia.
  by rewrite insert_app_r.
Qed.

Lemma str_join_snoc sep l x :
  l <> [] -> str_join sep (l ++ [x]) = str_join sep l +:+ sep +:+ x.
Proof.
  induction l as [|piece l IH]; [done|]. intros _.
  destruct l as [|piece' l]; [done|].
  change (str_join sep ((piece :: piece' :: l) ++ [x]))
    with (piece +:+ sep +:+ str_join sep ((piece' :: l) ++ [x])).
  rewrite IH by done.
  change (str_join sep (piece :: piece' :: l))
    with (piece +:+ sep +:+ str_join sep (piece' :: l)).
  by rewrite !append_assoc.
Qed.

Lemma list_snoc {A} (l : list A) : l <> [] -> exists init last, l = (init ++ [last])%list.
Proof.
  induction l as [|x l IH] using rev_ind; [done|]. intros _. eauto.
Qed.

(** The list assignment of [Run] never fails, because splitting never
    gives an empty list. *)
Lemma listing_parent_pieces location_ref location :
  exists pieces last,
    str_split "/" location_ref = (pieces ++ [last])%list /\
    ListAlpha.listing_parent location_ref location
    = Some (str_join "/" (pieces ++ [ListAlpha.location_or_all location])).
Proof.
  destruct (str_split_nonempty "/" location_ref) as (piece & rest & Hs).
  destruct (list_snoc (piece :: rest)) as (pieces & last & Hl); [done|].
  exists pieces, last. rewrite Hs. split; [done|].
  unfold ListAlpha.listing_parent. cbv zeta. rewrite Hs, Hl, setitem_last_snoc. done.
Qed.

(** X7: joining the pieces of a split gives the string back; a split has
    at least one piece, and no piece contains the separator. *)
Theorem str_split_join_round_trip (sep : ascii) (s : string) :
  str_join (String sep EmptyString) (str_split sep s) = s
  /\ str_split sep s <> []
  /\ Forall (fun piece => contains sep piece = false) (str_split sep s).
Proof.
  split_and!.
  - apply str_join_str_split.
  - by destruct (str_split_nonempty sep s) as (piece & pieces & ->).
  - apply str_split_pieces.
Qed.

(** X8: when the parsed location name is [base/segment], the command lists
    under [base/location], with "-" for the location when the flag is
    missing or empty; a name without any slash is replaced as a whole.  The
    flag is taken as it is, even if it contains slashes. *)
Theorem listing_parent_replaces_last_segment (base segment : string) (location : option string) :
  contains "/" segment = false ->
  ListAlpha.listing_parent (base +:+ "/" +:+ segment) location
  = Some (base +:+ "/" +:+ ListAlpha.location_or_all location)
  /\ ListAlpha.listing_parent segment location = Some (ListAlpha.location_or_all location)
  /\ ListAlpha.listing_parent (base +:+ "/" +:+ segment) None = Some (base +:+ "/-")
  /\ ListAlpha.listing_parent (base +:+ "/" +:+ segment) (Some "") = Some (base +:+ "/-").
Proof.
  intros Hsegment.
  assert (forall location,
    ListAlpha.listing_parent (base +:+ "/" +:+ segment) location
    = Some (base +:+ "/" +:+ ListAlpha.location_or_all location)) as Hbase.
  { intros loc. unfold ListAlpha.listing_parent. cbv zeta.
    change ("/" +:+ segment) with (String "/" segment).
    rewrite str_split_app, (str_split_single _ segment) by done.
    rewrite setitem_last_snoc. cbn [mbind option_bind]. f_equal.
    rewrite str_join_snoc.
    - by rewrite (str_join_str_split "/").
    - by destruct (str_split_nonempty "/" base) as (piece & pieces & ->). }
  split_and!; [apply Hbase | | apply Hbase | apply Hbase].
  unfold ListAlpha.listing_parent. cbv zeta.
  by rewrite (str_split_single _ segment).
Qed.

(** X8, for the name of one location. *)
Lemma listing_parent_replaces_last_segment_witness :
  ListAlpha.listing_parent "projects/p/locations/us-east1" (Some "europe-west4")
  = Some "projects/p/locations/europe-west4"
  /\ ListAlpha.listing_parent "us-east1" (Some "europe-west4") = Some "europe-west4"
  /\ ListAlpha.listing_parent "projects/p/locations/us-east1" None
     = Some "projects/p/locations/-"
  /\ ListAlpha.listing_parent "projects/p/locations/us-east1" (Some "")
     = Some "projects/p/locations/-".
Proof.
  apply (listing_parent_replaces_last_segment "projects/p/locations" "us-east1"
           (Some "europe-west4")).
  reflexivity.
Defined.

(** ** The list command as a whole *)

(** One resumption of the pager sends at most one request, to the parent
    it was created for, and touches nothing else. *)
Lemma step_effects g w :
  exists s requests,
    run (list_pager.step g) w
    = (Ok s, mkWorld (heap w) (calls w ++ map CallList requests) (warnings w) (clock w))
    /\ Forall (fun r => lr_parent r = lr_parent (list_pager.pg_request g)) requests
    /\ match s with
       | list_pager.Yield _ g' | list_pager.Skip g' =>
           lr_parent (list_pager.pg_request g') = lr_parent (list_pager.pg_request g)
       | list_pager.StopIteration => True
       end.
Proof.
  assert (forall s, run (mret s : M list_pager.GenStep) w
            = (Ok s, mkWorld (heap w) (calls w ++ map CallList []) (warnings w) (clock w)))
    as Hret by (intros s; simpl; by rewrite run_ret, app_nil_r, world_eta).
  destruct g as [svc request field limit batch items token phase].
  unfold list_pager.step. cbn [list_pager.pg_phase list_pager.pg_limit list_pager.pg_items
    list_pager.pg_token list_pager.pg_request list_pager.pg_service list_pager.pg_field
    list_pager.pg_batch_size].
  destruct phase.
  - destruct limit as [[|n]|].
    + eexists _, []. by rewrite Hret.
    + eexists _, [_]. rewrite run_bind, run_List_, run_ret. by repeat constructor.
    + eexists _, [_]. rewrite run_bind, run_List_, run_ret. by repeat constructor.
  - destruct items as [|item rest].
    + destruct (list_pager.no_token token); eexists _, []; by rewrite Hret.
    + eexists _, []. by rewrite Hret.
  - eexists _, []. by rewrite Hret.
Qed.

(** Consuming the pager only sends List requests, all to the same parent,
    and never raises. *)
Lemma list_effects fuel :
  forall g w out w',
    run (list_ fuel g) w = (out, w') ->
    exists requests,
      w' = mkWorld (heap w) (calls w ++ map CallList requests) (warnings w) (clock w)
      /\ Forall (fun r => lr_parent r = lr_parent (list_pager.pg_request g)) requests
      /\ (forall e, out <> Raise e).
Proof.
  induction fuel as [|fuel IH]; intros g w out w' Hrun.
  - inversion Hrun; subst. exists []. simpl. by rewrite app_nil_r, world_eta.
  - cbn [list_] in Hrun. rewrite run_bind in Hrun.
    destruct (step_effects g w) as (s & requests & Hstep & Hparent & Hnext).
    rewrite Hstep in Hrun. destruct s as [item g'|g'|].
    + rewrite run_fmap in Hrun.
      destruct (run (list_ fuel g') _) as [out1 w1] eqn:Hrest.
      apply IH in Hrest as (requests' & -> & Hparent' & Hout).
      exists (requests ++ requests')%list. split_and!.
      * destruct out1; inversion Hrun; subst; cbn [heap calls warnings clock];
          by rewrite map_app, app_assoc.
      * apply Forall_app. split; [done|].
        eapply Forall_impl; [exact Hparent'|]. intros r Hr. by rewrite Hr.
      * intros e ->. destruct out1; inversion Hrun; subst. by eapply Hout.
    + apply IH in Hrun as (requests' & -> & Hparent' & Hout).
      exists (requests ++ requests')%list. split_and!.
      * cbn [heap calls warnings clock]. by rewrite map_app, app_assoc.
      * apply Forall_app. split; [done|].
        eapply Forall_impl; [exact Hparent'|]. intros r Hr. by rewrite Hr.
      * done.
    + rewrite run_ret in Hrun. inversion Hrun; subst.
      exists requests. split_and!; done.
Qed.

(** X9: [Run] fails at once when the project property is not set.  When
    it is set, [Run] never fails on its list assignment nor on the release
    track: it constructs the ALPHA client and lists; the first request goes
    out for the parent computed from the arguments, with no page token and
    no page size, every later request is a List request for the same
    parent, and the clock and the message store are untouched. *)
Theorem Run_lists_under_listing_parent
    (env : Imports) (fuel : nat) (project location_ref : string)
    (location : option string) (limit : option nat) (w : World) :
  ListAlpha.Run env fuel (ListAlpha.mkArgs None location_ref location limit) w
  = ListAlpha.RequiredPropertyError
  /\ exists parent out w' requests,
       ListAlpha.listing_parent location_ref location = Some parent
       /\ ListAlpha.Run env fuel
            (ListAlpha.mkArgs (Some project) location_ref location limit) w
          = ListAlpha.Ran (out, w')
       /\ calls w'
          = (calls w ++ CallList (mkListRequest parent None None) :: map CallList requests)%list
       /\ Forall (fun r => lr_parent r = parent) requests
       /\ (forall e, out <> Raise e)
       /\ heap w' = heap w /\ clock w' = clock w.
Proof.
  split; [done|].
  destruct (listing_parent_pieces location_ref location) as (pieces & last & _ & Hparent).
  unfold ListAlpha.Run.
  cbn [ListAlpha.core_project ListAlpha.CONCEPTS_location ListAlpha.args_location
    ListAlpha.args_limit].
  rewrite Hparent.
  set (parent := str_join "/" (pieces ++ [ListAlpha.location_or_all location])).
  rewrite run_bind.
  change (run (StoragePoolsClient_.__init__ env ListAlpha._RELEASE_TRACK) w)
    with (Ok (mkClient (AlphaStoragePoolsAdapter_.__init__ env)), w).
  cbv beta iota. rewrite run_bind.
  unfold StoragePoolsClient_.ListStoragePools at 1.
  rewrite run_bind, run_List_, run_bind, (run_for_each_warning unreachable_warning), run_ret.
  cbv beta iota.
  match goal with
  | |- context [run (list_ fuel ?g) ?w1] =>
      destruct (run (list_ fuel g) w1) as [out w'] eqn:Hlist
  end.
  apply list_effects in Hlist as (requests & -> & Hreq & Hout).
  eexists parent, out, _, requests. split_and!; [done | done | | exact Hreq | done..].
  cbn [calls sent]. by rewrite <- app_assoc.
Qed.
